(** * AuraStyle: the orchestration layer of [src/App.tsx], embedded in Rocq

    The application is one React component, [App], whose state is eight
    [useState] cells and whose behaviour is two asynchronous handlers,
    [generateRecommendation] and [handleSendMessage], plus a handful of
    inline event handlers in the markup.  The development has four parts:

    - the fragment of the ECMAScript runtime the handlers call
      (strings as sequences of UTF-16 code units, [String.prototype.trim],
      Numbers, [JSON.parse], [JSON.stringify], truthiness);
    - the data model of [src/types.ts];
    - the component: its state, its handlers split at their [await], the
      guards the markup puts in front of them, and the resulting transition
      system over UI events and network responses;
    - the properties of that transition system. *)

From Stdlib Require Import NArith ZArith Bool Ascii String List Lia.
Import ListNotations.

Set Warnings "-register-all".

(* ================================================================== *)
(** * Part I: the ECMAScript runtime used by the component *)
(* ================================================================== *)

Module JS.

(** ** Strings

    An ECMAScript string is a finite sequence of 16-bit code units. *)

Definition jsstring : Type := list N.

(** A source literal made of ASCII characters only. *)
Definition lit (s : string) : jsstring :=
  map N_of_ascii (list_ascii_of_string s).

(** A code unit given by its ASCII character. *)
Definition ch (a : ascii) : N := N_of_ascii a.

Definition dquote : N := 34.
Definition backslash : N := 92.

Fixpoint jsstring_eqb (a b : jsstring) : bool :=
  match a, b with
  | [], [] => true
  | x :: a', y :: b' => (x =? y)%N && jsstring_eqb a' b'
  | _, _ => false
  end.

(** [a] occurs in [s] as a contiguous run of code units (what
    [s.includes(a)] decides). *)
Definition Contains (s a : jsstring) : Prop :=
  exists before after, s = before ++ a ++ after.

Fixpoint starts_with (p s : jsstring) : bool :=
  match p, s with
  | [], _ => true
  | x :: p', y :: s' => (x =? y)%N && starts_with p' s'
  | _ :: _, [] => false
  end.

Fixpoint includes (s a : jsstring) : bool :=
  starts_with a s ||
  match s with
  | [] => false
  | _ :: s' => includes s' a
  end.

(** WhiteSpace and LineTerminator code points, the ones [trim] strips:
    TAB, LF, VT, FF, CR, SP, NBSP, U+1680, U+2000..U+200A, LS, PS,
    U+202F, U+205F, U+3000 and the byte order mark. *)
Definition is_whitespace (c : N) : bool :=
  ((9 <=? c) && (c <=? 13) || (c =? 32) || (c =? 160) || (c =? 0x1680)
   || (0x2000 <=? c) && (c <=? 0x200A)
   || (c =? 0x2028) || (c =? 0x2029) || (c =? 0x202F) || (c =? 0x205F)
   || (c =? 0x3000) || (c =? 0xFEFF))%N.

Fixpoint trimStart (s : jsstring) : jsstring :=
  match s with
  | c :: s' => if is_whitespace c then trimStart s' else s
  | [] => []
  end.

Definition trimEnd (s : jsstring) : jsstring := rev (trimStart (rev s)).

(** [String.prototype.trim]. *)
Definition trim (s : jsstring) : jsstring := trimEnd (trimStart s).

(** Decimal digits of a natural number, most significant first, as code
    units. *)
Fixpoint uint_digits (d : Decimal.uint) : jsstring :=
  match d with
  | Decimal.Nil => []
  | Decimal.D0 d => 48%N :: uint_digits d
  | Decimal.D1 d => 49%N :: uint_digits d
  | Decimal.D2 d => 50%N :: uint_digits d
  | Decimal.D3 d => 51%N :: uint_digits d
  | Decimal.D4 d => 52%N :: uint_digits d
  | Decimal.D5 d => 53%N :: uint_digits d
  | Decimal.D6 d => 54%N :: uint_digits d
  | Decimal.D7 d => 55%N :: uint_digits d
  | Decimal.D8 d => 56%N :: uint_digits d
  | Decimal.D9 d => 57%N :: uint_digits d
  end.

Definition decimal (n : N) : jsstring := uint_digits (N.to_uint n).

Definition is_digit (c : N) : bool := ((48 <=? c) && (c <=? 57))%N.

(** The number written by a run of decimal digits. *)
Definition digits_value (ds : jsstring) : N :=
  fold_left (fun acc d => (10 * acc + (d - 48))%N) ds 0%N.

(** ** Numbers

    A Number is an IEEE 754 binary64 value.  The component never computes
    with Numbers; they only reach it inside a parsed JSON document, so NaN
    does not arise.  A finite Number is kept as sign, integer significand
    and binary exponent, in canonical form: the significand of a normal
    number lies in [2^52, 2^53), a subnormal one has exponent -1074, and
    zero is [Finite _ 0 0]. *)

Inductive Number : Type :=
| Finite (negative : bool) (significand : N) (exponent : Z)
| Infinite (negative : bool).

Definition Number_eqb (x y : Number) : bool :=
  match x, y with
  | Finite s m e, Finite s' m' e' => Bool.eqb s s' && (m =? m')%N && (e =? e')%Z
  | Infinite s, Infinite s' => Bool.eqb s s'
  | _, _ => false
  end.

Open Scope Z_scope.

(** The Number nearest to the positive rational [num / den], ties to even. *)
Definition round_ratio (negative : bool) (num den : Z) : Number :=
  let e1 := Z.log2 num - Z.log2 den - 52 in
  let scaled e := if 0 <=? e then (num, den * 2 ^ e) else (num * 2 ^ (- e), den) in
  let e2 := let (a, b) := scaled e1 in if a / b <? 2 ^ 52 then e1 - 1 else e1 in
  let e := Z.max e2 (-1074) in
  let (a, b) := scaled e in
  let q := a / b in
  let r := a mod b in
  let q' := if (b <? 2 * r) || ((b =? 2 * r) && Z.odd q) then q + 1 else q in
  let (m, e') := if q' =? 2 ^ 53 then (2 ^ 52, e + 1) else (q', e) in
  if 971 <? e' then Infinite negative
  else if m =? 0 then Finite negative 0 0
  else Finite negative (Z.to_N m) e'.

(** The Number denoted by the decimal numeral [digits * 10^exp10]. *)
Definition of_decimal (negative : bool) (digits : N) (exp10 : Z) : Number :=
  if (digits =? 0)%N then Finite negative 0 0
  else
    let size := Z.of_nat (length (decimal digits)) in
    if 310 <? size + exp10 then Infinite negative
    else if size + exp10 <? -330 then Finite negative 0 0
    else if 0 <=? exp10 then round_ratio negative (Z.of_N digits * 10 ^ exp10) 1
    else round_ratio negative (Z.of_N digits) (10 ^ (- exp10)).

(** [shortest x k]: a decimal numeral [s * 10^(n-k)] with [k] digits that
    reads back as the positive finite Number [x = m * 2^e], when there is
    one; of the candidates on either side of [x] the nearer is taken. *)
Definition shortest_with (m : N) (e : Z) (k : Z) : option (Z * Z) :=
  let num := if 0 <=? e then Z.of_N m * 2 ^ e else Z.of_N m in
  let den := if 0 <=? e then 1 else 2 ^ (- e) in
  let n0 := Z.of_nat (length (decimal (Z.to_N num)))
            - Z.of_nat (length (decimal (Z.to_N den))) in
  let n := if 0 <=? n0
           then (if den * 10 ^ n0 <=? num then n0 + 1 else n0)
           else (if den <=? num * 10 ^ (- n0) then n0 + 1 else n0) in
  let p := n - k in
  let a := if 0 <=? p then num else num * 10 ^ (- p) in
  let b := if 0 <=? p then den * 10 ^ p else den in
  let lo := a / b in
  let r := a mod b in
  let reads_back s :=
    Number_eqb (of_decimal false (Z.to_N s) p) (Finite false m e) in
  let pick s := if s =? 10 ^ k then Some (10 ^ (k - 1), n + 1) else Some (s, n) in
  match reads_back lo, reads_back (lo + 1) with
  | true, true =>
      if (2 * r <? b) || ((2 * r =? b) && Z.even lo) then pick lo else pick (lo + 1)
  | true, false => pick lo
  | false, true => pick (lo + 1)
  | false, false => None
  end.

Fixpoint shortest_from (m : N) (e : Z) (k : Z) (tries : nat) : Z * Z * Z :=
  match tries with
  | O => (k, 0, 0)
  | S tries' =>
      match shortest_with m e k with
      | Some (s, n) => (k, s, n)
      | None => shortest_from m e (k + 1) tries'
      end
  end.

(** [Number::toString] in radix 10 for a positive finite Number. *)
Definition positive_toString (m : N) (e : Z) : jsstring :=
  let '(k, s, n) := shortest_from m e 1 17 in
  let ds := decimal (Z.to_N s) in
  let zeros z := repeat 48%N (Z.to_nat z) in
  let exponent_part :=
    ch "e" :: (if 0 <=? n - 1 then ch "+" else ch "-")
           :: decimal (Z.to_N (Z.abs (n - 1))) in
  if (k <=? n) && (n <=? 21) then ds ++ zeros (n - k)
  else if (0 <? n) && (n <=? 21) then
    firstn (Z.to_nat n) ds ++ ch "." :: skipn (Z.to_nat n) ds
  else if (-6 <? n) && (n <=? 0) then
    ch "0" :: ch "." :: zeros (- n) ++ ds
  else if k =? 1 then ds ++ exponent_part
  else firstn 1 ds ++ ch "." :: skipn 1 ds ++ exponent_part.

(** The canonical form of a Number. *)
Definition canonical (x : Number) : Number :=
  match x with
  | Finite s 0%N _ => Finite s 0 0
  | Finite s m e =>
      if 0 <=? e then round_ratio s (Z.of_N m * 2 ^ e) 1
      else round_ratio s (Z.of_N m) (2 ^ (- e))
  | Infinite s => Infinite s
  end.

Definition Number_toString (x : Number) : jsstring :=
  match canonical x with
  | Finite _ 0%N _ => lit "0"
  | Finite true m e => ch "-" :: positive_toString m e
  | Finite false m e => positive_toString m e
  | Infinite true => lit "-Infinity"
  | Infinite false => lit "Infinity"
  end.

Close Scope Z_scope.

(** ** Values

    The values [JSON.parse] can build: [null], booleans, Numbers, strings,
    arrays, and plain objects.  An object is kept as its own properties in
    creation order. *)

Inductive JSValue : Type :=
| JNull
| JBool (b : bool)
| JNumber (x : Number)
| JString (s : jsstring)
| JArray (elements : list JSValue)
| JObject (properties : list (jsstring * JSValue)).

(** [ToBoolean]. *)
Definition truthy (v : JSValue) : bool :=
  match v with
  | JNull => false
  | JBool b => b
  | JNumber (Finite _ 0%N _) => false
  | JNumber (Finite _ _ _) | JNumber (Infinite _) => true
  | JString [] => false
  | JString (_ :: _) => true
  | JArray _ | JObject _ => true
  end.

(** [CreateDataProperty] on a plain object: an existing key keeps its place
    and takes the new value, a new key goes last. *)
Fixpoint define_property (k : jsstring) (v : JSValue)
    (props : list (jsstring * JSValue)) : list (jsstring * JSValue) :=
  match props with
  | [] => [(k, v)]
  | (k', v') :: props' =>
      if jsstring_eqb k k' then (k, v) :: props'
      else (k', v') :: define_property k v props'
  end.

Fixpoint get_property (k : jsstring) (props : list (jsstring * JSValue))
    : option JSValue :=
  match props with
  | [] => None
  | (k', v) :: props' =>
      if jsstring_eqb k k' then Some v else get_property k props'
  end.

(** An array index: the canonical decimal numeral of an integer below
    2^32 - 1. *)
Definition array_index (k : jsstring) : option N :=
  match k with
  | [] => None
  | c :: rest =>
      if forallb is_digit k && (negb (c =? 48)%N || match rest with [] => true | _ => false end)
         && (List.length k <=? 10)%nat && (digits_value k <? 4294967295)%N
      then Some (digits_value k)
      else None
  end.

Fixpoint insert_by_index {A : Type} (i : N) (p : jsstring * A)
    (sorted : list (N * (jsstring * A))) : list (N * (jsstring * A)) :=
  match sorted with
  | [] => [(i, p)]
  | (j, q) :: sorted' =>
      if (i <? j)%N then (i, p) :: sorted
      else (j, q) :: insert_by_index i p sorted'
  end.

(** [OrdinaryOwnPropertyKeys]: array indices in ascending order, then the
    other keys in creation order. *)
Definition own_properties {A : Type} (props : list (jsstring * A))
    : list (jsstring * A) :=
  let indexed :=
    fold_left (fun acc p =>
                 match array_index (fst p) with
                 | Some i => insert_by_index i p acc
                 | None => acc
                 end) props [] in
  let named :=
    filter (fun p => match array_index (fst p) with
                     | Some _ => false
                     | None => true
                     end) props in
  map snd indexed ++ named.

(** ** JSON.stringify *)

Definition hex_digit (n : N) : N :=
  if (n <? 10)%N then (48 + n)%N else (87 + n)%N.

(** [UnicodeEscape]: a backslash, [u], and four lowercase hex digits. *)
Definition unicode_escape (c : N) : jsstring :=
  [backslash; ch "u";
   hex_digit (N.shiftr c 12 mod 16); hex_digit (N.shiftr c 8 mod 16);
   hex_digit (N.shiftr c 4 mod 16); hex_digit (c mod 16)].

Definition is_leading_surrogate (c : N) : bool :=
  ((0xD800 <=? c) && (c <=? 0xDBFF))%N.
Definition is_trailing_surrogate (c : N) : bool :=
  ((0xDC00 <=? c) && (c <=? 0xDFFF))%N.

(** The body of [QuoteJSONString]; [after_lead] tells that the previous
    code unit was a leading surrogate that this one may complete. *)
Fixpoint quote_units (after_lead : bool) (s : jsstring) : jsstring :=
  match s with
  | [] => []
  | c :: s' =>
      if (c =? 8)%N then backslash :: ch "b" :: quote_units false s'
      else if (c =? 9)%N then backslash :: ch "t" :: quote_units false s'
      else if (c =? 10)%N then backslash :: ch "n" :: quote_units false s'
      else if (c =? 12)%N then backslash :: ch "f" :: quote_units false s'
      else if (c =? 13)%N then backslash :: ch "r" :: quote_units false s'
      else if (c =? dquote)%N then backslash :: dquote :: quote_units false s'
      else if (c =? backslash)%N then backslash :: backslash :: quote_units false s'
      else if (c <? 32)%N then unicode_escape c ++ quote_units false s'
      else if is_leading_surrogate c then
        match s' with
        | d :: _ =>
            if is_trailing_surrogate d then c :: quote_units true s'
            else unicode_escape c ++ quote_units false s'
        | [] => unicode_escape c
        end
      else if is_trailing_surrogate c then
        if after_lead then c :: quote_units false s'
        else unicode_escape c ++ quote_units false s'
      else c :: quote_units false s'
  end.

Definition QuoteJSONString (s : jsstring) : jsstring :=
  dquote :: quote_units false s ++ [dquote].

Fixpoint join (sep : jsstring) (parts : list jsstring) : jsstring :=
  match parts with
  | [] => []
  | [p] => p
  | p :: parts' => p ++ sep ++ join sep parts'
  end.

(** [JSON.stringify(v)] with no replacer and no indentation, on a value
    built by [JSON.parse] (or [null]); it always yields a string there. *)
Fixpoint JSON_stringify (v : JSValue) : jsstring :=
  match v with
  | JNull => lit "null"
  | JBool true => lit "true"
  | JBool false => lit "false"
  | JNumber x =>
      match canonical x with
      | Infinite _ => lit "null"
      | Finite _ _ _ => Number_toString x
      end
  | JString s => QuoteJSONString s
  | JArray elements =>
      ch "[" :: join [ch ","] (map JSON_stringify elements) ++ [ch "]"]
  | JObject properties =>
      ch "{" ::
        join [ch ","]
          (map (fun p => QuoteJSONString (fst p) ++ ch ":" :: snd p)
               (own_properties
                  (map (fun p => (fst p, JSON_stringify (snd p))) properties)))
        ++ [ch "}"]
  end.

(** ** JSON.parse

    The JSON grammar of ECMA-404, read left to right.  Each reader takes
    the text still to read and returns what it read with the text after
    it. *)

(** JSON white space: TAB, LF, CR, SP. *)
Definition is_json_whitespace (c : N) : bool :=
  ((c =? 9) || (c =? 10) || (c =? 13) || (c =? 32))%N.

Fixpoint skip_whitespace (s : jsstring) : jsstring :=
  match s with
  | c :: s' => if is_json_whitespace c then skip_whitespace s' else s
  | [] => []
  end.

Definition hex_value (c : N) : option N :=
  if is_digit c then Some (c - 48)%N
  else if ((97 <=? c) && (c <=? 102))%N then Some (c - 87)%N
  else if ((65 <=? c) && (c <=? 70))%N then Some (c - 55)%N
  else None.

Definition hex4 (a b c d : N) : option N :=
  match hex_value a, hex_value b, hex_value c, hex_value d with
  | Some x, Some y, Some z, Some w => Some (((x * 16 + y) * 16 + z) * 16 + w)%N
  | _, _, _, _ => None
  end.

(** The code unit a single-character escape stands for. *)
Definition escaped (c : N) : option N :=
  if (c =? dquote)%N then Some dquote
  else if (c =? backslash)%N then Some backslash
  else if (c =? ch "/")%N then Some (ch "/")
  else if (c =? ch "b")%N then Some 8%N
  else if (c =? ch "f")%N then Some 12%N
  else if (c =? ch "n")%N then Some 10%N
  else if (c =? ch "r")%N then Some 13%N
  else if (c =? ch "t")%N then Some 9%N
  else None.

(** A string, from just after its opening quote to its closing quote. *)
Fixpoint read_string (s : jsstring) : option (jsstring * jsstring) :=
  match s with
  | [] => None
  | c :: rest =>
      if (c =? dquote)%N then Some ([], rest)
      else if (c =? backslash)%N then
        match rest with
        | [] => None
        | e :: rest' =>
            if (e =? ch "u")%N then
              match rest' with
              | h1 :: h2 :: h3 :: h4 :: rest'' =>
                  match hex4 h1 h2 h3 h4, read_string rest'' with
                  | Some u, Some (str, after) => Some (u :: str, after)
                  | _, _ => None
                  end
              | _ => None
              end
            else
              match escaped e, read_string rest' with
              | Some u, Some (str, after) => Some (u :: str, after)
              | _, _ => None
              end
        end
      else if (c <? 32)%N then None
      else
        match read_string rest with
        | Some (str, after) => Some (c :: str, after)
        | None => None
        end
  end.

(** The longest run of decimal digits at the head of the text. *)
Fixpoint read_digits (s : jsstring) : jsstring * jsstring :=
  match s with
  | c :: s' =>
      if is_digit c then let (ds, rest) := read_digits s' in (c :: ds, rest)
      else ([], s)
  | [] => ([], [])
  end.

(** The integer part of a number: a lone zero, or digits not starting
    with zero. *)
Definition read_int (s : jsstring) : option (jsstring * jsstring) :=
  match s with
  | c :: s' =>
      if (c =? 48)%N then Some ([c], s')
      else if is_digit c then Some (read_digits s)
      else None
  | [] => None
  end.

(** The optional fraction: a point and at least one digit. *)
Definition read_frac (s : jsstring) : option (jsstring * jsstring) :=
  match s with
  | c :: s' =>
      if (c =? ch ".")%N then
        match read_digits s' with
        | ([], _) => None
        | (ds, rest) => Some (ds, rest)
        end
      else Some ([], s)
  | [] => Some ([], [])
  end.

(** The optional exponent: [e] or [E], an optional sign, and at least one
    digit. *)
Definition read_exp (s : jsstring) : option (Z * jsstring) :=
  match s with
  | c :: s' =>
      if ((c =? ch "e") || (c =? ch "E"))%N then
        let (negative, s'') :=
          match s' with
          | sign :: t =>
              if (sign =? ch "-")%N then (true, t)
              else if (sign =? ch "+")%N then (false, t)
              else (false, s')
          | [] => (false, s')
          end in
        match read_digits s'' with
        | ([], _) => None
        | (ds, rest) =>
            let e := Z.of_N (digits_value ds) in
            Some (if negative then (- e)%Z else e, rest)
        end
      else Some (0%Z, s)
  | [] => Some (0%Z, [])
  end.

Definition read_number (s : jsstring) : option (Number * jsstring) :=
  let (negative, s1) :=
    match s with
    | c :: s' => if (c =? ch "-")%N then (true, s') else (false, s)
    | [] => (false, s)
    end in
  match read_int s1 with
  | None => None
  | Some (int, s2) =>
      match read_frac s2 with
      | None => None
      | Some (frac, s3) =>
          match read_exp s3 with
          | None => None
          | Some (e, rest) =>
              Some (of_decimal negative (digits_value (int ++ frac))
                      (e - Z.of_nat (List.length frac))%Z,
                    rest)
          end
      end
  end.

Inductive Read (A : Type) : Type :=
| Got (a : A) (rest : jsstring)
| SyntaxError
| OutOfFuel.
Arguments Got {A} a rest.
Arguments SyntaxError {A}.
Arguments OutOfFuel {A}.

(** A value, the elements of an array after its opening bracket, and the
    members of an object after its opening brace.  [fuel] bounds the
    number of nested calls; every call but the first follows the reading
    of at least one character. *)
Fixpoint read_value (fuel : nat) (s : jsstring) : Read JSValue :=
  match fuel with
  | O => OutOfFuel
  | S fuel' =>
      match skip_whitespace s with
      | [] => SyntaxError
      | c :: rest =>
          if (c =? ch "{")%N then
            match skip_whitespace rest with
            | c' :: rest' =>
                if (c' =? ch "}")%N then Got (JObject []) rest'
                else read_members fuel' [] rest
            | [] => SyntaxError
            end
          else if (c =? ch "[")%N then
            match skip_whitespace rest with
            | c' :: rest' =>
                if (c' =? ch "]")%N then Got (JArray []) rest'
                else read_elements fuel' [] rest
            | [] => SyntaxError
            end
          else if (c =? dquote)%N then
            match read_string rest with
            | Some (str, after) => Got (JString str) after
            | None => SyntaxError
            end
          else if starts_with (lit "true") (c :: rest) then
            Got (JBool true) (skipn 4 (c :: rest))
          else if starts_with (lit "false") (c :: rest) then
            Got (JBool false) (skipn 5 (c :: rest))
          else if starts_with (lit "null") (c :: rest) then
            Got JNull (skipn 4 (c :: rest))
          else
            match read_number (c :: rest) with
            | Some (x, after) => Got (JNumber x) after
            | None => SyntaxError
            end
      end
  end

with read_elements (fuel : nat) (seen : list JSValue) (s : jsstring)
    : Read JSValue :=
  match fuel with
  | O => OutOfFuel
  | S fuel' =>
      match read_value fuel' s with
      | Got v rest =>
          match skip_whitespace rest with
          | c :: rest' =>
              if (c =? ch ",")%N then read_elements fuel' (seen ++ [v]) rest'
              else if (c =? ch "]")%N then Got (JArray (seen ++ [v])) rest'
              else SyntaxError
          | [] => SyntaxError
          end
      | SyntaxError => SyntaxError
      | OutOfFuel => OutOfFuel
      end
  end

with read_members (fuel : nat) (seen : list (jsstring * JSValue))
    (s : jsstring) : Read JSValue :=
  match fuel with
  | O => OutOfFuel
  | S fuel' =>
      match skip_whitespace s with
      | q :: rest =>
          if (q =? dquote)%N then
            match read_string rest with
            | Some (key, after) =>
                match skip_whitespace after with
                | colon :: after' =>
                    if (colon =? ch ":")%N then
                      match read_value fuel' after' with
                      | Got v rest' =>
                          match skip_whitespace rest' with
                          | c :: rest'' =>
                              if (c =? ch ",")%N then
                                read_members fuel' (define_property key v seen) rest''
                              else if (c =? ch "}")%N then
                                Got (JObject (define_property key v seen)) rest''
                              else SyntaxError
                          | [] => SyntaxError
                          end
                      | SyntaxError => SyntaxError
                      | OutOfFuel => OutOfFuel
                      end
                    else SyntaxError
                | [] => SyntaxError
                end
            | None => SyntaxError
            end
          else SyntaxError
      | [] => SyntaxError
      end
  end.

(** [JSON.parse(text)] with no reviver: [Some v] when [text] is one JSON
    value surrounded by optional white space, [None] when the call throws
    a [SyntaxError]. *)
Definition JSON_parse (text : jsstring) : option JSValue :=
  match read_value (2 * List.length text + 2) text with
  | Got v rest =>
      match skip_whitespace rest with
      | [] => Some v
      | _ :: _ => None
      end
  | SyntaxError => None
  | OutOfFuel => None
  end.

(** [ToString] of a value that is a string or [undefined]. *)
Definition ToString_or_undefined (v : option jsstring) : jsstring :=
  match v with
  | Some s => s
  | None => lit "undefined"
  end.

(** Test data: a JSON text written with apostrophes where the text has
    double quotes. *)
Definition json_text (s : string) : jsstring :=
  map (fun c => if (c =? 39)%N then dquote else c) (lit s).

End JS.

Import JS.

(* ================================================================== *)
(** * Part II: the data model of [src/types.ts] *)
(* ================================================================== *)

(** [Occasion] and [Weather] are unions of string literal types: a value
    of the type is one of the listed strings. *)
Inductive Occasion : Type :=
| Casual | Business | Wedding | DateNight | Party | FormalEvent
| OutdoorAdventure.

Inductive Weather : Type :=
| Sunny | Rainy | Cold | Hot | Windy | Snowy.

Definition Occasion_string (o : Occasion) : jsstring :=
  match o with
  | Casual => lit "Casual"
  | Business => lit "Business"
  | Wedding => lit "Wedding"
  | DateNight => lit "Date Night"
  | Party => lit "Party"
  | FormalEvent => lit "Formal Event"
  | OutdoorAdventure => lit "Outdoor Adventure"
  end.

Definition Weather_string (we : Weather) : jsstring :=
  match we with
  | Sunny => lit "Sunny"
  | Rainy => lit "Rainy"
  | Cold => lit "Cold"
  | Hot => lit "Hot"
  | Windy => lit "Windy"
  | Snowy => lit "Snowy"
  end.

Definition Occasion_eqb (a b : Occasion) : bool :=
  jsstring_eqb (Occasion_string a) (Occasion_string b).

Definition Weather_eqb (a b : Weather) : bool :=
  jsstring_eqb (Weather_string a) (Weather_string b).

(** Every member of the [Occasion] type, in the order of its declaration. *)
Definition all_occasions : list Occasion :=
  [Casual; Business; Wedding; DateNight; Party; FormalEvent; OutdoorAdventure].

Definition all_weathers : list Weather :=
  [Sunny; Rainy; Cold; Hot; Windy; Snowy].

(** The [Recommendation] interface: four string fields. *)
Record Recommendation : Type := {
  outfit : jsstring;
  footwear : jsstring;
  accessories : jsstring;
  stylingTips : jsstring
}.

Inductive Role : Type := user | model.

Record Message : Type := {
  role : Role;
  text : jsstring
}.

(** The object a [Recommendation] is at run time. *)
Definition Recommendation_value (r : Recommendation) : JSValue :=
  JObject [(lit "outfit", JString (outfit r));
           (lit "footwear", JString (footwear r));
           (lit "accessories", JString (accessories r));
           (lit "stylingTips", JString (stylingTips r))].

(** Reading a run-time value at the [Recommendation] interface: its four
    fields, when each is there and is a string. *)
Definition string_property (k : jsstring) (v : JSValue) : option jsstring :=
  match v with
  | JObject props =>
      match get_property k props with
      | Some (JString s) => Some s
      | _ => None
      end
  | _ => None
  end.

Definition as_Recommendation (v : JSValue) : option Recommendation :=
  match string_property (lit "outfit") v, string_property (lit "footwear") v,
        string_property (lit "accessories") v, string_property (lit "stylingTips") v with
  | Some a, Some b, Some c, Some d =>
      Some {| outfit := a; footwear := b; accessories := c; stylingTips := d |}
  | _, _, _, _ => None
  end.

(** The text [JSON.stringify] writes for a [Recommendation]: the four
    members in order, keys and values quoted, no white space. *)
Definition Recommendation_text (r : Recommendation) : jsstring :=
  ch "{" :: dquote :: quote_units false (lit "outfit")
  ++ dquote :: ch ":" :: dquote :: quote_units false (outfit r)
  ++ dquote :: ch "," :: dquote :: quote_units false (lit "footwear")
  ++ dquote :: ch ":" :: dquote :: quote_units false (footwear r)
  ++ dquote :: ch "," :: dquote :: quote_units false (lit "accessories")
  ++ dquote :: ch ":" :: dquote :: quote_units false (accessories r)
  ++ dquote :: ch "," :: dquote :: quote_units false (lit "stylingTips")
  ++ dquote :: ch ":" :: dquote :: quote_units false (stylingTips r)
  ++ dquote :: ch "}" :: [].

(* ================================================================== *)
(** * Part III: the component of [src/App.tsx] *)
(* ================================================================== *)

(** ** The catalogs *)

Inductive Icon : Type :=
| Shirt | Briefcase | Sparkles | Heart | PartyPopper | Mountain
| Sun | CloudRain | Snowflake | ThermometerSun | Wind.

Record CatalogItem (A : Type) : Type := {
  label : A;
  icon : Icon
}.
Arguments label {A} _.
Arguments icon {A} _.

Definition OCCASIONS : list (CatalogItem Occasion) :=
  [ {| label := Casual; icon := Shirt |};
    {| label := Business; icon := Briefcase |};
    {| label := Wedding; icon := Sparkles |};
    {| label := DateNight; icon := Heart |};
    {| label := Party; icon := PartyPopper |};
    {| label := OutdoorAdventure; icon := Mountain |} ].

Definition WEATHERS : list (CatalogItem Weather) :=
  [ {| label := Sunny; icon := Sun |};
    {| label := Rainy; icon := CloudRain |};
    {| label := Cold; icon := Snowflake |};
    {| label := Hot; icon := ThermometerSun |};
    {| label := Windy; icon := Wind |};
    {| label := Snowy; icon := Snowflake |} ].

(** ** The state of [App]: its [useState] cells

    [recommendation] is declared [Recommendation | null], but what the
    cell holds is whatever [JSON.parse] returned: the annotation is erased
    and nothing checks the value against it. *)
Record AppState : Type := {
  occasion : option Occasion;
  weather : option Weather;
  recommendation : JSValue;
  loading : bool;
  chatOpen : bool;
  messages : list Message;
  inputValue : jsstring;
  chatLoading : bool
}.

Definition initial_state : AppState :=
  {| occasion := None; weather := None; recommendation := JNull;
     loading := false; chatOpen := false; messages := [];
     inputValue := []; chatLoading := false |}.

Definition setOccasion (v : option Occasion) (s : AppState) : AppState :=
  {| occasion := v; weather := weather s; recommendation := recommendation s;
     loading := loading s; chatOpen := chatOpen s; messages := messages s;
     inputValue := inputValue s; chatLoading := chatLoading s |}.

Definition setWeather (v : option Weather) (s : AppState) : AppState :=
  {| occasion := occasion s; weather := v; recommendation := recommendation s;
     loading := loading s; chatOpen := chatOpen s; messages := messages s;
     inputValue := inputValue s; chatLoading := chatLoading s |}.

Definition setRecommendation (v : JSValue) (s : AppState) : AppState :=
  {| occasion := occasion s; weather := weather s; recommendation := v;
     loading := loading s; chatOpen := chatOpen s; messages := messages s;
     inputValue := inputValue s; chatLoading := chatLoading s |}.

Definition setLoading (v : bool) (s : AppState) : AppState :=
  {| occasion := occasion s; weather := weather s; recommendation := recommendation s;
     loading := v; chatOpen := chatOpen s; messages := messages s;
     inputValue := inputValue s; chatLoading := chatLoading s |}.

Definition setChatOpen (v : bool) (s : AppState) : AppState :=
  {| occasion := occasion s; weather := weather s; recommendation := recommendation s;
     loading := loading s; chatOpen := v; messages := messages s;
     inputValue := inputValue s; chatLoading := chatLoading s |}.

(** [setMessages] takes the new list or, as [setMessages(prev => ...)], a
    function of the list the cell holds when the update is applied. *)
Definition updateMessages (f : list Message -> list Message) (s : AppState)
    : AppState :=
  {| occasion := occasion s; weather := weather s; recommendation := recommendation s;
     loading := loading s; chatOpen := chatOpen s; messages := f (messages s);
     inputValue := inputValue s; chatLoading := chatLoading s |}.

Definition setMessages (v : list Message) : AppState -> AppState :=
  updateMessages (fun _ => v).

Definition setInputValue (v : jsstring) (s : AppState) : AppState :=
  {| occasion := occasion s; weather := weather s; recommendation := recommendation s;
     loading := loading s; chatOpen := chatOpen s; messages := messages s;
     inputValue := v; chatLoading := chatLoading s |}.

Definition setChatLoading (v : bool) (s : AppState) : AppState :=
  {| occasion := occasion s; weather := weather s; recommendation := recommendation s;
     loading := loading s; chatOpen := chatOpen s; messages := messages s;
     inputValue := inputValue s; chatLoading := v |}.

(** A selection inside a template literal or under [!]: the cell holds a
    label or [null]. *)
Definition Occasion_text (o : option Occasion) : jsstring :=
  match o with
  | Some x => Occasion_string x
  | None => lit "null"
  end.

Definition Weather_text (we : option Weather) : jsstring :=
  match we with
  | Some x => Weather_string x
  | None => lit "null"
  end.

Definition string_truthy (s : option jsstring) : bool :=
  match s with
  | Some (_ :: _) => true
  | Some [] | None => false
  end.

Definition occasion_set (s : AppState) : bool :=
  string_truthy (option_map Occasion_string (occasion s)).

Definition weather_set (s : AppState) : bool :=
  string_truthy (option_map Weather_string (weather s)).

(** ** The calls to the external model *)

Inductive SchemaType : Type := STRING | OBJECT.

Record PropertySchema : Type := {
  property_name : jsstring;
  property_type : SchemaType;
  description : jsstring
}.

Record Schema : Type := {
  schema_type : SchemaType;
  properties : list PropertySchema;
  required : list jsstring
}.

Definition responseSchema : Schema :=
  {| schema_type := OBJECT;
     properties :=
       [ {| property_name := lit "outfit"; property_type := STRING;
            description := lit "Detailed outfit recommendation" |};
         {| property_name := lit "footwear"; property_type := STRING;
            description := lit "Footwear suggestion" |};
         {| property_name := lit "accessories"; property_type := STRING;
            description := lit "Accessories recommendation" |};
         {| property_name := lit "stylingTips"; property_type := STRING;
            description := lit "Practical and trendy styling tips" |} ];
     required := [lit "outfit"; lit "footwear"; lit "accessories"; lit "stylingTips"] |}.

(** A value has the shape a schema of this kind describes: an object that
    holds every required property, each declared property it holds being
    a string. *)
Definition conforms (sch : Schema) (v : JSValue) : bool :=
  match v with
  | JObject props =>
      forallb (fun k => match get_property k props with
                        | Some _ => true
                        | None => false
                        end) (required sch)
      && forallb (fun p => match get_property (property_name p) props with
                           | Some (JString _) | None => true
                           | Some _ => false
                           end) (properties sch)
  | _ => false
  end.

Definition MODEL : jsstring := lit "gemini-3.1-pro-preview".

Inductive Request : Type :=
| GenerateContent (model_name : jsstring) (contents : jsstring)
    (responseMimeType : jsstring) (schema : Schema)
| ChatSendMessage (model_name : jsstring) (systemInstruction : jsstring)
    (history : list Message) (message : jsstring).

(** How an awaited call settles: the promise is fulfilled with a response
    whose [text] is a string or [undefined], or it is rejected. *)
Inductive Outcome : Type :=
| Fulfilled (response_text : option jsstring)
| Rejected.

(** What is left of a handler at its [await]: the rest of its body, with
    the variables of the render it closed over. *)
Inductive Continuation : Type :=
| generateRecommendation_rest (occasion : option Occasion) (weather : option Weather)
| handleSendMessage_rest.

Record Call : Type := {
  request : Request;
  continuation : Continuation
}.

(** The component in its environment: its state, the calls in flight, in
    the order they were issued, and the lines written by [console.error]. *)
Record World : Type := {
  state : AppState;
  in_flight : list Call;
  console : list jsstring
}.

Definition initial_world : World :=
  {| state := initial_state; in_flight := []; console := [] |}.

Definition with_state (f : AppState -> AppState) (w : World) : World :=
  {| state := f (state w); in_flight := in_flight w; console := console w |}.

Definition await (c : Call) (w : World) : World :=
  {| state := state w; in_flight := in_flight w ++ [c]; console := console w |}.

Definition console_error (line : jsstring) (w : World) : World :=
  {| state := state w; in_flight := in_flight w; console := console w ++ [line] |}.

(** ** [generateRecommendation]

    The handler runs to its [await] when it is called and from there when
    the call settles.  Its [try], [catch] and [finally] together cover the
    second half: a rejected call and a [SyntaxError] from [JSON.parse] end
    in the [catch], and every path ends in the [finally]. *)

Definition recommendation_prompt (o : option Occasion) (we : option Weather)
    : jsstring :=
  lit "As a professional fashion stylist, generate a detailed outfit recommendation for a "
  ++ Occasion_text o ++ lit " occasion in " ++ Weather_text we
  ++ lit " weather. Return the response in JSON format.".

Definition greeting (o : option Occasion) (we : option Weather) : jsstring :=
  lit "Hello! I've generated a " ++ Occasion_text o ++ lit " look for "
  ++ Weather_text we
  ++ lit " weather. Do you have any specific questions about this outfit or need more styling advice?".

Definition generateRecommendation (w : World) : World :=
  let s := state w in
  if negb (occasion_set s) || negb (weather_set s) then w
  else
    await
      {| request :=
           GenerateContent MODEL (recommendation_prompt (occasion s) (weather s))
             (lit "application/json") responseSchema;
         continuation := generateRecommendation_rest (occasion s) (weather s) |}
      (with_state (setLoading true) w).

Definition generateRecommendation_resume (o : option Occasion)
    (we : option Weather) (outcome : Outcome) (w : World) : World :=
  let caught := console_error (lit "Error generating recommendation:") w in
  let tried :=
    match outcome with
    | Fulfilled response_text =>
        match JSON_parse (ToString_or_undefined response_text) with
        | Some result =>
            with_state (setMessages [ {| role := model; text := greeting o we |} ])
              (with_state (setRecommendation result) w)
        | None => caught
        end
    | Rejected => caught
    end in
  with_state (setLoading false) tried.

(** ** [handleSendMessage] *)

Definition systemInstruction (o : option Occasion) (we : option Weather)
    (rec : JSValue) : jsstring :=
  lit "You are a professional fashion stylist. You just recommended an outfit for a "
  ++ Occasion_text o ++ lit " occasion in " ++ Weather_text we
  ++ lit " weather. The recommendation was: " ++ JSON_stringify rec
  ++ lit ". Answer the user's questions about fashion, styling, and this specific recommendation. Keep it trendy, practical, and encouraging.".

Definition EMPTY_REPLY : jsstring := lit "I'm sorry, I couldn't process that.".

Definition CHAT_FAILED : jsstring :=
  lit "I'm having trouble connecting right now. Please try again.".

(** [a || b] on an operand that is a string or [undefined]. *)
Definition or_else (a : option jsstring) (b : jsstring) : jsstring :=
  match a with
  | Some (c :: s) => c :: s
  | Some [] | None => b
  end.

(** [ai.chats.create] is given a model and a system instruction and no
    [history], so the chat it returns starts empty, and [sendMessage] sends
    its one message. *)
Definition handleSendMessage (w : World) : World :=
  let s := state w in
  if negb (string_truthy (Some (trim (inputValue s)))) || chatLoading s then w
  else
    let userMessage := {| role := user; text := inputValue s |} in
    await
      {| request :=
           ChatSendMessage MODEL
             (systemInstruction (occasion s) (weather s) (recommendation s))
             [] (inputValue s);
         continuation := handleSendMessage_rest |}
      (with_state (setChatLoading true)
         (with_state (setInputValue [])
            (with_state (updateMessages (fun prev => prev ++ [userMessage])) w))).

Definition handleSendMessage_resume (outcome : Outcome) (w : World) : World :=
  let tried :=
    match outcome with
    | Fulfilled response_text =>
        with_state
          (updateMessages
             (fun prev => prev ++ [ {| role := model;
                                       text := or_else response_text EMPTY_REPLY |} ]))
          w
    | Rejected =>
        with_state
          (updateMessages
             (fun prev => prev ++ [ {| role := model; text := CHAT_FAILED |} ]))
          (console_error (lit "Chat error:") w)
    end in
  with_state (setChatLoading false) tried.

(** ** The calls settle *)

Fixpoint remove_nth {A : Type} (i : nat) (l : list A) : list A :=
  match i, l with
  | _, [] => []
  | O, _ :: l' => l'
  | S i', x :: l' => x :: remove_nth i' l'
  end.

(** The [i]-th call in flight settles with [outcome], and the handler that
    awaits it runs on. *)
Definition settle (i : nat) (outcome : Outcome) (w : World) : World :=
  match nth_error (in_flight w) i with
  | None => w
  | Some c =>
      let w' := {| state := state w; in_flight := remove_nth i (in_flight w);
                   console := console w |} in
      match continuation c with
      | generateRecommendation_rest o we =>
          generateRecommendation_resume o we outcome w'
      | handleSendMessage_rest => handleSendMessage_resume outcome w'
      end
  end.

(** ** What is rendered *)

Inductive View : Type := EmptyView | LoadingView | ResultView.

(** The conditional of the results panel. *)
Definition results_view (s : AppState) : View :=
  if negb (truthy (recommendation s)) && negb (loading s) then EmptyView
  else if loading s then LoadingView
  else ResultView.

(** The [disabled] attribute of the "Curate My Look" button. *)
Definition curate_disabled (s : AppState) : bool :=
  negb (occasion_set s) || negb (weather_set s) || loading s.

(** The [disabled] attribute of the send button. *)
Definition send_disabled (s : AppState) : bool :=
  negb (string_truthy (Some (trim (inputValue s)))) || chatLoading s.

(** ** The events of the page

    A control can be acted on when it is rendered and not disabled: there
    is one occasion button per item of [OCCASIONS] and one weather button
    per item of [WEATHERS]; the "Ask Stylist" button belongs to the result
    view; the backdrop, the close button, the text input and the send
    button belong to the chat drawer, rendered when [chatOpen].  A call
    in flight may settle at any moment, in any order.  Scrolling and
    animation are left out. *)
Inductive Event : Type :=
| ClickOccasion (o : Occasion)
| ClickWeather (we : Weather)
| ClickCurate
| ClickAskStylist
| ClickBackdrop
| ClickClose
| ChangeInput (value : jsstring)
| KeyDown (key : jsstring)
| ClickSend
| Settle (i : nat) (outcome : Outcome).

Definition step (w : World) (e : Event) : World :=
  let s := state w in
  match e with
  | ClickOccasion o =>
      if existsb (fun item => Occasion_eqb (label item) o) OCCASIONS
      then with_state (setOccasion (Some o)) w else w
  | ClickWeather we =>
      if existsb (fun item => Weather_eqb (label item) we) WEATHERS
      then with_state (setWeather (Some we)) w else w
  | ClickCurate =>
      if curate_disabled s then w else generateRecommendation w
  | ClickAskStylist =>
      match results_view s with
      | ResultView => with_state (setChatOpen true) w
      | _ => w
      end
  | ClickBackdrop | ClickClose =>
      if chatOpen s then with_state (setChatOpen false) w else w
  | ChangeInput value =>
      if chatOpen s then with_state (setInputValue value) w else w
  | KeyDown key =>
      if chatOpen s && jsstring_eqb key (lit "Enter")
      then handleSendMessage w else w
  | ClickSend =>
      if chatOpen s && negb (send_disabled s) then handleSendMessage w else w
  | Settle i outcome => settle i outcome w
  end.

(** The world after a sequence of events, from the first render. *)
Definition run (events : list Event) : World :=
  fold_left step events initial_world.

Definition count_calls (p : Continuation -> bool) (w : World) : nat :=
  List.length (filter (fun c => p (continuation c)) (in_flight w)).

Definition awaits_recommendation (k : Continuation) : bool :=
  match k with
  | generateRecommendation_rest _ _ => true
  | handleSendMessage_rest => false
  end.

Definition awaits_chat (k : Continuation) : bool :=
  match k with
  | generateRecommendation_rest _ _ => false
  | handleSendMessage_rest => true
  end.

(** ** The selection buttons as rendered

    A button of the selection panel is drawn highlighted when the
    selection cell is strictly equal to its label. *)
Definition occasion_highlighted (s : AppState) (item : CatalogItem Occasion)
    : bool :=
  match occasion s with
  | Some o => Occasion_eqb o (label item)
  | None => false
  end.

Definition weather_highlighted (s : AppState) (item : CatalogItem Weather)
    : bool :=
  match weather s with
  | Some we => Weather_eqb we (label item)
  | None => false
  end.

(** ** The calls the component can have in flight

    A recommendation call made for a pair the panel offers, with the fixed
    model, prompt, MIME type and schema; or a chat call with the fixed
    model, a system instruction written for a selected pair, no history,
    and a message that is not blank. *)
Definition expected_call (c : Call) : Prop :=
  match continuation c with
  | generateRecommendation_rest (Some o) (Some we) =>
      request c
      = GenerateContent MODEL (recommendation_prompt (Some o) (Some we))
          (lit "application/json") responseSchema
      /\ In o (map label OCCASIONS) /\ In we (map label WEATHERS)
  | generateRecommendation_rest _ _ => False
  | handleSendMessage_rest =>
      exists o we rec message,
        request c
        = ChatSendMessage MODEL (systemInstruction (Some o) (Some we) rec) []
            message
        /\ trim message <> []
  end.

(** ** Sample data

    The reply of the external service in the spec's first end-to-end
    scenario, a reply that is JSON of another shape, one that is no JSON
    at all, and the chat question of the second scenario. *)

Definition navy_suit_reply : jsstring :=
  json_text "{'outfit':'Navy suit','footwear':'Leather oxfords','accessories':'Umbrella','stylingTips':'Layer for rain'}".

Definition navy_suit : Recommendation :=
  {| outfit := lit "Navy suit"; footwear := lit "Leather oxfords";
     accessories := lit "Umbrella"; stylingTips := lit "Layer for rain" |}.

Definition outfit_only_reply : jsstring :=
  json_text "{'outfit':'Navy suit'}".

Definition apology_reply : jsstring :=
  lit "Sorry, I cannot help with that.".

Definition tie_question : jsstring := lit "What color tie?".

(** The first scenario: Business and Rainy selected, a look requested, the
    reply received. *)
Definition business_rainy_look : list Event :=
  [ClickOccasion Business; ClickWeather Rainy; ClickCurate;
   Settle 0 (Fulfilled (Some navy_suit_reply))].

(** ** What every reachable world satisfies

    The flags count the calls in flight; a recommendation call was made
    with both selections set; the occasion is one that has a button; and
    the transcript, once a recommendation has arrived, the chat has been
    opened or a chat call is in flight, starts with a greeting. *)

Definition greeting_message (o : Occasion) (we : Weather) : Message :=
  {| role := model; text := greeting (Some o) (Some we) |}.

Record Invariant (w : World) : Prop := {
  recommendation_calls :
    count_calls awaits_recommendation w = if loading (state w) then 1 else 0;
  chat_calls :
    count_calls awaits_chat w = if chatLoading (state w) then 1 else 0;
  calls_have_a_pair :
    forall c o we,
      In c (in_flight w) ->
      continuation c = generateRecommendation_rest o we ->
      exists o' we', o = Some o' /\ we = Some we';
  occasion_has_a_button : occasion (state w) <> Some FormalEvent;
  transcript_greets :
    messages (state w) = []
    \/ exists o we rest, messages (state w) = greeting_message o we :: rest;
  recommendation_seeds : recommendation (state w) <> JNull -> messages (state w) <> [];
  chat_seeded : chatOpen (state w) = true -> messages (state w) <> [];
  chat_call_seeded : chatLoading (state w) = true -> messages (state w) <> []
}.

(* ================================================================== *)
(** * Part IV: properties *)
(* ================================================================== *)

#[local] Arguments lit : simpl never.
#[local] Arguments JSON_parse : simpl never.
#[local] Arguments JSON_stringify : simpl never.
#[local] Arguments trim : simpl never.

(** ** Strings *)

Lemma Contains_infix (a b c : jsstring) : Contains (a ++ b ++ c) b.
Proof. exists a, c. reflexivity. Qed.

Lemma Contains_here (a s : jsstring) : Contains (a ++ s) a.
Proof. exists [], s. reflexivity. Qed.

Lemma Contains_skip (p s a : jsstring) : Contains s a -> Contains (p ++ s) a.
Proof.
  intros [before [after ->]]. exists (p ++ before), after.
  now rewrite <- app_assoc.
Qed.

Lemma Contains_second_infix (a b c d e : jsstring) :
  Contains (a ++ b ++ c ++ d ++ e) d.
Proof. do 3 apply Contains_skip. apply Contains_here. Qed.

Lemma starts_with_app (a s : jsstring) : starts_with a (a ++ s) = true.
Proof.
  induction a as [|x a IH]; simpl; [reflexivity|].
  now rewrite N.eqb_refl, IH.
Qed.

Lemma Contains_includes (s a : jsstring) :
  Contains s a -> includes s a = true.
Proof.
  intros [before [after ->]].
  induction before as [|x before IH]; simpl.
  - assert (H : forall t, includes t a = true \/ starts_with a t = false).
    { intros [|y t]; simpl; destruct (starts_with a _); auto. }
    destruct (H (a ++ after)) as [E|E]; [exact E|].
    now rewrite starts_with_app in E.
  - rewrite IH. apply orb_true_r.
Qed.

(** Every label is a non-empty string, so [!occasion] and [!weather] test
    for [null] and nothing else. *)
Lemma occasion_set_iff (s : AppState) :
  occasion_set s = true <-> occasion s <> None.
Proof.
  unfold occasion_set.
  destruct (occasion s) as [[]|]; simpl; split; congruence.
Qed.

Lemma weather_set_iff (s : AppState) :
  weather_set s = true <-> weather s <> None.
Proof.
  unfold weather_set.
  destruct (weather s) as [[]|]; simpl; split; congruence.
Qed.

Lemma greeting_names_the_pair (o : Occasion) (we : Weather) :
  Contains (greeting (Some o) (Some we)) (Occasion_string o)
  /\ Contains (greeting (Some o) (Some we)) (Weather_string we).
Proof.
  unfold greeting; simpl Occasion_text; simpl Weather_text. split.
  - apply Contains_infix.
  - apply Contains_second_infix.
Qed.

(** ** Lists of calls *)

Lemma filter_remove_nth_length {A : Type} (p : A -> bool) (l : list A) :
  forall i x, nth_error l i = Some x ->
    List.length (filter p (remove_nth i l))
    = List.length (filter p l) - (if p x then 1 else 0).
Proof.
  induction l as [|y l IH]; intros [|i] x H; simpl in *; try discriminate.
  - inversion H; subst. destruct (p x); simpl; lia.
  - specialize (IH i x H).
    destruct (p y); simpl; rewrite IH; [|reflexivity].
    destruct (p x) eqn:Px; [|lia].
    assert (0 < List.length (filter p l)); [|lia].
    clear IH. revert i H. induction l as [|z l IHl]; intros [|i] H; simpl in *;
      try discriminate.
    + inversion H; subst. rewrite Px. simpl. lia.
    + destruct (p z); simpl; [lia | eauto].
Qed.

Lemma filter_snoc_length {A : Type} (p : A -> bool) (l : list A) (x : A) :
  List.length (filter p (l ++ [x]))
  = List.length (filter p l) + (if p x then 1 else 0).
Proof.
  rewrite filter_app, length_app. simpl. destruct (p x); reflexivity.
Qed.

(** ** The reader runs on enough fuel *)

Lemma skip_whitespace_length (s : jsstring) :
  List.length (skip_whitespace s) <= List.length s.
Proof.
  induction s as [|c s IH]; simpl; [lia|].
  destruct (is_json_whitespace c); simpl; lia.
Qed.

Lemma skip_whitespace_cons (s : jsstring) (c : N) (rest : jsstring) :
  skip_whitespace s = c :: rest -> List.length rest < List.length s.
Proof.
  intros H. pose proof (skip_whitespace_length s) as L. rewrite H in L.
  simpl in L. lia.
Qed.

Lemma read_string_length (s : jsstring) :
  forall str rest, read_string s = Some (str, rest) ->
    List.length rest < List.length s.
Proof.
  assert (G : forall n t, List.length t <= n ->
                forall str rest, read_string t = Some (str, rest) ->
                  List.length rest < List.length t);
    [|exact (G _ s (le_n _))].
  clear s. induction n as [|n IHn]; intros s Hle str rest H;
    (destruct s as [|c s]; [discriminate|]); simpl in Hle; [lia|].
  assert (IH : forall t str rest, read_string t = Some (str, rest) ->
                 List.length t <= n -> List.length rest < List.length t)
    by (intros t str' rest' Hr Ht; exact (IHn t Ht str' rest' Hr)).
  clear IHn.
  cbn [read_string] in H.
  destruct (c =? dquote)%N.
  { inversion H; subst. simpl. lia. }
  destruct (c =? backslash)%N.
  { destruct s as [|e s]; [discriminate|].
    destruct (e =? ch "u")%N.
    - destruct s as [|h1 [|h2 [|h3 [|h4 s]]]]; try discriminate.
      destruct (hex4 h1 h2 h3 h4); [|discriminate].
      destruct (read_string s) as [[str' after]|] eqn:E; [|discriminate].
      inversion H; subst. apply IH in E; simpl in *; lia.
    - destruct (escaped e); [|discriminate].
      destruct (read_string s) as [[str' after]|] eqn:E; [|discriminate].
      inversion H; subst. apply IH in E; simpl in *; lia. }
  destruct (c <? 32)%N; [discriminate|].
  destruct (read_string s) as [[str' after]|] eqn:E; [|discriminate].
  inversion H; subst. apply IH in E; simpl in *; lia.
Qed.

Lemma read_digits_length (s : jsstring) :
  forall ds rest, read_digits s = (ds, rest) ->
    List.length rest + List.length ds = List.length s.
Proof.
  induction s as [|c s IH]; intros ds rest H; simpl in H.
  - inversion H. reflexivity.
  - destruct (is_digit c).
    + destruct (read_digits s) as [ds' rest'] eqn:E. inversion H; subst.
      specialize (IH _ _ eq_refl). simpl. lia.
    + inversion H; subst. simpl. lia.
Qed.

Lemma read_number_length (s : jsstring) :
  forall x rest, read_number s = Some (x, rest) ->
    List.length rest < List.length s.
Proof.
  intros x rest H. unfold read_number in H.
  destruct (match s with
            | c :: s' => if (c =? ch "-")%N then (true, s') else (false, s)
            | [] => (false, s)
            end) as [negative s1] eqn:E1.
  assert (L1 : List.length s1 <= List.length s).
  { destruct s as [|c s']; [inversion E1; subst; simpl; lia|].
    destruct (c =? ch "-")%N; inversion E1; subst; simpl; lia. }
  destruct (read_int s1) as [[int s2]|] eqn:E2; [|discriminate].
  assert (L2 : List.length s2 < List.length s1).
  { unfold read_int in E2. destruct s1 as [|c s1']; [discriminate|].
    destruct (c =? 48)%N; [inversion E2; subst; simpl; lia|].
    destruct (is_digit c) eqn:D; [|discriminate].
    inversion E2 as [E]. simpl in E. rewrite D in E.
    destruct (read_digits s1') as [ds r] eqn:E3. inversion E; subst.
    apply read_digits_length in E3. simpl. lia. }
  destruct (read_frac s2) as [[frac s3]|] eqn:E3; [|discriminate].
  assert (L3 : List.length s3 <= List.length s2).
  { unfold read_frac in E3. destruct s2 as [|c s2']; [inversion E3; subst; simpl; lia|].
    destruct (c =? ch ".")%N; [|inversion E3; subst; simpl; lia].
    destruct (read_digits s2') as [ds r] eqn:E4.
    apply read_digits_length in E4.
    destruct ds; [discriminate|]. inversion E3; subst. simpl in *. lia. }
  destruct (read_exp s3) as [[e s4]|] eqn:E4; [|discriminate].
  assert (L4 : List.length s4 <= List.length s3).
  { unfold read_exp in E4. destruct s3 as [|c s3']; [inversion E4; subst; simpl; lia|].
    destruct ((c =? ch "e") || (c =? ch "E"))%N; [|inversion E4; subst; simpl; lia].
    destruct (match s3' with
              | sign :: t =>
                  if (sign =? ch "-")%N then (true, t)
                  else if (sign =? ch "+")%N then (false, t) else (false, s3')
              | [] => (false, s3')
              end) as [neg s''] eqn:E5.
    assert (List.length s'' <= List.length s3').
    { destruct s3' as [|sign t]; [inversion E5; subst; simpl; lia|].
      destruct (sign =? ch "-")%N; [inversion E5; subst; simpl; lia|].
      destruct (sign =? ch "+")%N; inversion E5; subst; simpl; lia. }
    destruct (read_digits s'') as [ds r] eqn:E6.
    apply read_digits_length in E6.
    destruct ds; [discriminate|]. inversion E4; subst. simpl in *. lia. }
  inversion H; subst. lia.
Qed.

Lemma read_progress (fuel : nat) :
  (forall s v r, read_value fuel s = Got v r -> List.length r < List.length s)
  /\ (forall seen s v r,
        read_elements fuel seen s = Got v r -> List.length r < List.length s)
  /\ (forall seen s v r,
        read_members fuel seen s = Got v r -> List.length r < List.length s).
Proof.
  induction fuel as [|fuel [IHv [IHe IHm]]];
    [repeat split; intros; discriminate|].
  split; [|split].
  - intros s v r H. cbn [read_value] in H.
    destruct (skip_whitespace s) as [|c rest] eqn:Es; [discriminate|].
    pose proof (skip_whitespace_cons _ _ _ Es) as L.
    destruct (c =? ch "{")%N.
    { destruct (skip_whitespace rest) as [|c' rest'] eqn:E'; [discriminate|].
      pose proof (skip_whitespace_cons _ _ _ E').
      destruct (c' =? ch "}")%N; [inversion H; subst; lia|].
      apply IHm in H. lia. }
    destruct (c =? ch "[")%N.
    { destruct (skip_whitespace rest) as [|c' rest'] eqn:E'; [discriminate|].
      pose proof (skip_whitespace_cons _ _ _ E').
      destruct (c' =? ch "]")%N; [inversion H; subst; lia|].
      apply IHe in H. lia. }
    destruct (c =? dquote)%N.
    { destruct (read_string rest) as [[str after]|] eqn:E'; [|discriminate].
      apply read_string_length in E'. inversion H; subst. lia. }
    destruct (starts_with (lit "true") (c :: rest)).
    { assert (E : r = skipn 4 (c :: rest)) by congruence.
      rewrite E, length_skipn. simpl. lia. }
    destruct (starts_with (lit "false") (c :: rest)).
    { assert (E : r = skipn 5 (c :: rest)) by congruence.
      rewrite E, length_skipn. simpl. lia. }
    destruct (starts_with (lit "null") (c :: rest)).
    { assert (E : r = skipn 4 (c :: rest)) by congruence.
      rewrite E, length_skipn. simpl. lia. }
    destruct (read_number (c :: rest)) as [[x after]|] eqn:E'; [|discriminate].
    apply read_number_length in E'. inversion H; subst. simpl in E'. lia.
  - intros seen s v r H. cbn [read_elements] in H.
    destruct (read_value fuel s) as [v0 rest| |] eqn:Ev; try discriminate.
    apply IHv in Ev.
    destruct (skip_whitespace rest) as [|c rest'] eqn:Es; [discriminate|].
    pose proof (skip_whitespace_cons _ _ _ Es).
    destruct (c =? ch ",")%N; [apply IHe in H; lia|].
    destruct (c =? ch "]")%N; [inversion H; subst; lia | discriminate].
  - intros seen s v r H. cbn [read_members] in H.
    destruct (skip_whitespace s) as [|q rest] eqn:Es; [discriminate|].
    pose proof (skip_whitespace_cons _ _ _ Es).
    destruct (q =? dquote)%N; [|discriminate].
    destruct (read_string rest) as [[key after]|] eqn:Ek; [|discriminate].
    apply read_string_length in Ek.
    destruct (skip_whitespace after) as [|colon after'] eqn:Ea; [discriminate|].
    pose proof (skip_whitespace_cons _ _ _ Ea).
    destruct (colon =? ch ":")%N; [|discriminate].
    destruct (read_value fuel after') as [v0 rest'| |] eqn:Ev; try discriminate.
    apply IHv in Ev.
    destruct (skip_whitespace rest') as [|c rest''] eqn:Er; [discriminate|].
    pose proof (skip_whitespace_cons _ _ _ Er).
    destruct (c =? ch ",")%N; [apply IHm in H; lia|].
    destruct (c =? ch "}")%N; [inversion H; subst; lia | discriminate].
Qed.

Lemma read_enough_fuel (fuel : nat) :
  (forall s, 2 * List.length s + 1 <= fuel -> read_value fuel s <> OutOfFuel)
  /\ (forall seen s,
        2 * List.length s + 2 <= fuel -> read_elements fuel seen s <> OutOfFuel)
  /\ (forall seen s,
        2 * List.length s + 2 <= fuel -> read_members fuel seen s <> OutOfFuel).
Proof.
  induction fuel as [|fuel [IHv [IHe IHm]]]; [repeat split; intros; lia|].
  destruct (read_progress fuel) as [Pv _].
  split; [|split].
  - intros s Hf. cbn [read_value].
    destruct (skip_whitespace s) as [|c rest] eqn:Es; [discriminate|].
    pose proof (skip_whitespace_cons _ _ _ Es) as L.
    destruct (c =? ch "{")%N.
    { destruct (skip_whitespace rest) as [|c' rest'] eqn:E'; [discriminate|].
      destruct (c' =? ch "}")%N; [discriminate|]. apply IHm. lia. }
    destruct (c =? ch "[")%N.
    { destruct (skip_whitespace rest) as [|c' rest'] eqn:E'; [discriminate|].
      destruct (c' =? ch "]")%N; [discriminate|]. apply IHe. lia. }
    destruct (c =? dquote)%N.
    { destruct (read_string rest) as [[str after]|]; discriminate. }
    destruct (starts_with (lit "true") (c :: rest)); [discriminate|].
    destruct (starts_with (lit "false") (c :: rest)); [discriminate|].
    destruct (starts_with (lit "null") (c :: rest)); [discriminate|].
    destruct (read_number (c :: rest)) as [[x after]|]; discriminate.
  - intros seen s Hf. cbn [read_elements].
    destruct (read_value fuel s) as [v0 rest| |] eqn:Ev; [|discriminate|].
    + apply Pv in Ev.
      destruct (skip_whitespace rest) as [|c rest'] eqn:Es; [discriminate|].
      pose proof (skip_whitespace_cons _ _ _ Es).
      destruct (c =? ch ",")%N; [apply IHe; lia|].
      destruct (c =? ch "]")%N; discriminate.
    + exfalso. revert Ev. apply IHv. lia.
  - intros seen s Hf. cbn [read_members].
    destruct (skip_whitespace s) as [|q rest] eqn:Es; [discriminate|].
    pose proof (skip_whitespace_cons _ _ _ Es).
    destruct (q =? dquote)%N; [|discriminate].
    destruct (read_string rest) as [[key after]|] eqn:Ek; [|discriminate].
    apply read_string_length in Ek.
    destruct (skip_whitespace after) as [|colon after'] eqn:Ea; [discriminate|].
    pose proof (skip_whitespace_cons _ _ _ Ea).
    destruct (colon =? ch ":")%N; [|discriminate].
    destruct (read_value fuel after') as [v0 rest'| |] eqn:Ev; [|discriminate|].
    + apply Pv in Ev.
      destruct (skip_whitespace rest') as [|c rest''] eqn:Er; [discriminate|].
      pose proof (skip_whitespace_cons _ _ _ Er).
      destruct (c =? ch ",")%N; [apply IHm; lia|].
      destruct (c =? ch "}")%N; discriminate.
    + exfalso. revert Ev. apply IHv. lia.
Qed.

(** More fuel changes no result that was reached. *)
Lemma read_more_fuel (fuel : nat) :
  (forall s res, read_value fuel s = res -> res <> OutOfFuel ->
                 read_value (S fuel) s = res)
  /\ (forall seen s res, read_elements fuel seen s = res -> res <> OutOfFuel ->
                 read_elements (S fuel) seen s = res)
  /\ (forall seen s res, read_members fuel seen s = res -> res <> OutOfFuel ->
                 read_members (S fuel) seen s = res).
Proof.
  induction fuel as [|fuel [IHv [IHe IHm]]];
    [repeat split; intros; subst; simpl in *; congruence|].
  split; [|split].
  - intros s res H Hres. cbn [read_value] in H |- *.
    destruct (skip_whitespace s) as [|c rest]; [exact H|].
    destruct (c =? ch "{")%N.
    { destruct (skip_whitespace rest) as [|c' rest']; [exact H|].
      destruct (c' =? ch "}")%N; [exact H|]. now apply IHm. }
    destruct (c =? ch "[")%N.
    { destruct (skip_whitespace rest) as [|c' rest']; [exact H|].
      destruct (c' =? ch "]")%N; [exact H|]. now apply IHe. }
    exact H.
  - intros seen s res H Hres.
    change (read_elements (S (S fuel)) seen s)
      with (match read_value (S fuel) s with
            | Got v rest =>
                match skip_whitespace rest with
                | c :: rest' =>
                    if (c =? ch ",")%N then read_elements (S fuel) (seen ++ [v]) rest'
                    else if (c =? ch "]")%N then Got (JArray (seen ++ [v])) rest'
                    else SyntaxError
                | [] => SyntaxError
                end
            | SyntaxError => SyntaxError
            | OutOfFuel => OutOfFuel
            end).
    cbn [read_elements] in H.
    destruct (read_value fuel s) as [v0 rest| |] eqn:Ev.
    + rewrite (IHv _ _ Ev) by discriminate.
      destruct (skip_whitespace rest) as [|c rest']; [exact H|].
      destruct (c =? ch ",")%N; [now apply IHe | exact H].
    + rewrite (IHv _ _ Ev) by discriminate. exact H.
    + congruence.
  - intros seen s res H Hres.
    change (read_members (S (S fuel)) seen s)
      with (match skip_whitespace s with
      | q :: rest =>
          if (q =? dquote)%N then
            match read_string rest with
            | Some (key, after) =>
                match skip_whitespace after with
                | colon :: after' =>
                    if (colon =? ch ":")%N then
                      match read_value (S fuel) after' with
                      | Got v rest' =>
                          match skip_whitespace rest' with
                          | c :: rest'' =>
                              if (c =? ch ",")%N then
                                read_members (S fuel) (define_property key v seen) rest''
                              else if (c =? ch "}")%N then
                                Got (JObject (define_property key v seen)) rest''
                              else SyntaxError
                          | [] => SyntaxError
                          end
                      | SyntaxError => SyntaxError
                      | OutOfFuel => OutOfFuel
                      end
                    else SyntaxError
                | [] => SyntaxError
                end
            | None => SyntaxError
            end
          else SyntaxError
      | [] => SyntaxError
      end).
    cbn [read_members] in H.
    destruct (skip_whitespace s) as [|q rest]; [exact H|].
    destruct (q =? dquote)%N; [|exact H].
    destruct (read_string rest) as [[key after]|]; [|exact H].
    destruct (skip_whitespace after) as [|colon after']; [exact H|].
    destruct (colon =? ch ":")%N; [|exact H].
    destruct (read_value fuel after') as [v0 rest'| |] eqn:Ev.
    + rewrite (IHv _ _ Ev) by discriminate.
      destruct (skip_whitespace rest') as [|c rest'']; [exact H|].
      destruct (c =? ch ",")%N; [now apply IHm | exact H].
    + rewrite (IHv _ _ Ev) by discriminate. exact H.
    + congruence.
Qed.

(** [JSON.parse] never stops for lack of fuel, and more fuel than it
    takes changes nothing: what it returns is what the grammar says. *)
Theorem JSON_parse_fuel :
  forall (text : jsstring) (extra : nat),
    read_value (2 * List.length text + 2) text <> OutOfFuel
    /\ read_value (2 * List.length text + 2 + extra) text
       = read_value (2 * List.length text + 2) text.
Proof.
  intros text extra.
  assert (H : read_value (2 * List.length text + 2) text <> OutOfFuel)
    by (apply (read_enough_fuel (2 * List.length text + 2)); lia).
  split; [exact H|].
  induction extra as [|extra IH]; [now rewrite Nat.add_0_r|].
  rewrite Nat.add_succ_r.
  apply (proj1 (read_more_fuel _)); [exact IH | exact H].
Qed.

(** ** The two handlers, call by call *)

Lemma settle_at (w : World) (i : nat) (c : Call) (outcome : Outcome) :
  nth_error (in_flight w) i = Some c ->
  settle i outcome w =
    let w' := {| state := state w; in_flight := remove_nth i (in_flight w);
                 console := console w |} in
    match continuation c with
    | generateRecommendation_rest o we =>
        generateRecommendation_resume o we outcome w'
    | handleSendMessage_rest => handleSendMessage_resume outcome w'
    end.
Proof. intros H. unfold settle. now rewrite H. Qed.

Lemma generateRecommendation_issues (w : World) (o : Occasion) (we : Weather) :
  occasion (state w) = Some o -> weather (state w) = Some we ->
  generateRecommendation w =
    await
      {| request :=
           GenerateContent MODEL (recommendation_prompt (Some o) (Some we))
             (lit "application/json") responseSchema;
         continuation := generateRecommendation_rest (Some o) (Some we) |}
      (with_state (setLoading true) w).
Proof.
  intros Ho Hw. unfold generateRecommendation.
  assert (E1 : occasion_set (state w) = true) by (apply occasion_set_iff; congruence).
  assert (E2 : weather_set (state w) = true) by (apply weather_set_iff; congruence).
  rewrite E1, E2, Ho, Hw. reflexivity.
Qed.

(** C1, as the code has it.  A request made with both selections set puts
    one call in flight that carries the two labels in its prompt and keeps
    them for its continuation.  Whenever that call is fulfilled with a
    text that parses as JSON of the shape of [responseSchema], whatever
    happened in between, the parsed value becomes the recommendation as a
    whole and the transcript becomes exactly one message, of role [model],
    whose text contains the occasion label and the weather label the
    request was made with.  Settling the call changes neither selection:
    the greeting names the selected pair when the selection is still the
    one of the request, and the pair of the request, not the selected one,
    when the user picked another while the call was in flight. *)
Theorem generateRecommendation_success :
  forall (w : World) (o : Occasion) (we : Weather),
    occasion (state w) = Some o ->
    weather (state w) = Some we ->
    exists c : Call,
      generateRecommendation w = await c (with_state (setLoading true) w)
      /\ (exists prompt mime,
            request c = GenerateContent MODEL prompt mime responseSchema
            /\ Contains prompt (Occasion_string o)
            /\ Contains prompt (Weather_string we))
      /\ forall (w' : World) (i : nat) (body : jsstring) (result : JSValue),
           nth_error (in_flight w') i = Some c ->
           JSON_parse body = Some result ->
           conforms responseSchema result = true ->
           let w'' := settle i (Fulfilled (Some body)) w' in
           recommendation (state w'') = result
           /\ (exists r, as_Recommendation (recommendation (state w'')) = Some r)
           /\ (exists m,
                 messages (state w'') = [m] /\ role m = model
                 /\ Contains (text m) (Occasion_string o)
                 /\ Contains (text m) (Weather_string we))
           /\ occasion (state w'') = occasion (state w')
           /\ weather (state w'') = weather (state w')
           /\ loading (state w'') = false
           /\ in_flight w'' = remove_nth i (in_flight w')
           /\ (occasion (state w') = Some o -> weather (state w') = Some we ->
               occasion (state w'') = Some o /\ weather (state w'') = Some we).
Proof.
  intros w o we Ho Hw.
  eexists. split; [apply (generateRecommendation_issues w o we Ho Hw)|].
  split.
  - do 2 eexists. split; [reflexivity|]. unfold recommendation_prompt.
    simpl Occasion_text; simpl Weather_text. split.
    + apply Contains_infix.
    + apply Contains_second_infix.
  - intros w' i body result Hi Hparse Hconf w''.
    subst w''. rewrite (settle_at _ _ _ _ Hi). simpl.
    unfold generateRecommendation_resume. simpl. rewrite Hparse. simpl.
    repeat split.
    + unfold conforms in Hconf. destruct result as [| | | | |props]; try discriminate.
      simpl in Hconf. unfold as_Recommendation, string_property.
      repeat match type of Hconf with
             | context [get_property ?k props] =>
                 destruct (get_property k props) as [[]|]; simpl in Hconf;
                 try discriminate
             end.
      eexists; reflexivity.
    + eexists. split; [reflexivity|]. split; [reflexivity|].
      apply greeting_names_the_pair.
    + assumption.
    + assumption.
Qed.

Lemma generateRecommendation_success_scenario :
  exists m,
    as_Recommendation (recommendation (state (run business_rainy_look)))
    = Some navy_suit
    /\ messages (state (run business_rainy_look)) = [m]
    /\ role m = model
    /\ Contains (text m) (lit "Business")
    /\ Contains (text m) (lit "Rainy").
Proof.
  pose (w := run [ClickOccasion Business; ClickWeather Rainy]).
  destruct (@generateRecommendation_success w Business Rainy eq_refl eq_refl)
    as [c [Hissue [_ Hsettle]]].
  assert (Hc : nth_error (in_flight (generateRecommendation w)) 0 = Some c)
    by (rewrite Hissue; reflexivity).
  assert (Hparse : JSON_parse navy_suit_reply = Some (Recommendation_value navy_suit))
    by (vm_compute; reflexivity).
  destruct (Hsettle _ 0 navy_suit_reply _ Hc Hparse eq_refl)
    as [Hrec [_ [[m [Hm [Hrole [Ho Hw]]]] _]]].
  exists m.
  change (run business_rainy_look)
    with (settle 0 (Fulfilled (Some navy_suit_reply)) (generateRecommendation w)).
  rewrite Hrec. repeat split; assumption.
Defined.

(** The selection buttons stay enabled while a call is in flight.  A look
    is requested for Business and Rainy, Casual and Sunny are selected
    before the reply arrives, and the reply is the conforming one of the
    first scenario: the recommendation is stored and the transcript is one
    [model] message, whose text names Business and Rainy and contains
    neither selected label. *)
Lemma reselecting_while_loading :
  let w := run [ClickOccasion Business; ClickWeather Rainy; ClickCurate;
                ClickOccasion Casual; ClickWeather Sunny;
                Settle 0 (Fulfilled (Some navy_suit_reply))] in
  (exists result, JSON_parse navy_suit_reply = Some result
                  /\ conforms responseSchema result = true
                  /\ recommendation (state w) = result)
  /\ occasion (state w) = Some Casual
  /\ weather (state w) = Some Sunny
  /\ exists m,
       messages (state w) = [m]
       /\ role m = model
       /\ m = greeting_message Business Rainy
       /\ ~ Contains (text m) (Occasion_string Casual)
       /\ ~ Contains (text m) (Weather_string Sunny).
Proof.
  intros w.
  split; [eexists; repeat split; vm_compute; reflexivity|].
  split; [vm_compute; reflexivity|]. split; [vm_compute; reflexivity|].
  exists (greeting_message Business Rainy).
  split; [vm_compute; reflexivity|]. split; [reflexivity|].
  split; [reflexivity|].
  split; intros H; apply Contains_includes in H; vm_compute in H; discriminate H.
Qed.

(** C2, as the code has it.  When the call is rejected, or is fulfilled
    with a text that [JSON.parse] refuses, every state cell but [loading]
    keeps its value (the recommendation and the transcript among them; the
    component has no cell for an error), [loading] is cleared, and one line
    goes to the console.  When the text is JSON, of any shape, it is stored:
    the parsed value becomes the recommendation and the transcript is
    reset to the greeting, with nothing written to the console. *)
Theorem generateRecommendation_failure :
  forall (w : World) (i : nat) (c : Call) (o : option Occasion)
         (we : option Weather),
    nth_error (in_flight w) i = Some c ->
    continuation c = generateRecommendation_rest o we ->
    (forall outcome : Outcome,
        outcome = Rejected
        \/ (exists t, outcome = Fulfilled t
                      /\ JSON_parse (ToString_or_undefined t) = None) ->
        let w' := settle i outcome w in
        state w' = setLoading false (state w)
        /\ recommendation (state w') = recommendation (state w)
        /\ messages (state w') = messages (state w)
        /\ console w' = console w ++ [lit "Error generating recommendation:"])
    /\ (forall (body : jsstring) (result : JSValue),
          JSON_parse body = Some result ->
          let w' := settle i (Fulfilled (Some body)) w in
          recommendation (state w') = result
          /\ messages (state w') = [ {| role := model; text := greeting o we |} ]
          /\ console w' = console w).
Proof.
  intros w i c o we Hi Hk. split.
  - intros outcome H w'. subst w'. rewrite (settle_at _ _ _ _ Hi), Hk.
    unfold generateRecommendation_resume.
    destruct H as [-> | [t [-> Hparse]]]; [|rewrite Hparse];
      repeat split.
  - intros body result Hparse w'. subst w'. rewrite (settle_at _ _ _ _ Hi), Hk.
    unfold generateRecommendation_resume. simpl. rewrite Hparse.
    repeat split.
Qed.

Lemma generateRecommendation_failure_scenario :
  let w := run [ClickOccasion Business; ClickWeather Rainy; ClickCurate] in
  let w' := settle 0 (Fulfilled (Some apology_reply)) w in
  JSON_parse apology_reply = None
  /\ state w' = setLoading false (state w)
  /\ console w' = [lit "Error generating recommendation:"].
Proof.
  intros w w'.
  assert (Hparse : JSON_parse apology_reply = None) by (vm_compute; reflexivity).
  split; [exact Hparse|].
  destruct (@generateRecommendation_failure w 0 _ _ _ eq_refl eq_refl) as [H _].
  destruct (H (Fulfilled (Some apology_reply))
              (or_intror (ex_intro _ (Some apology_reply) (conj eq_refl Hparse))))
    as [Hs [_ [_ Hc]]].
  split; [exact Hs | exact Hc].
Defined.

(** A reply that is JSON but lacks three of the four fields: after a first
    look, a chat turn and a second request, it replaces the recommendation
    and resets the three-message transcript, and nothing is logged. *)
Lemma outfit_only_reply_is_stored :
  let before :=
    run (business_rainy_look
         ++ [ClickAskStylist; ChangeInput tie_question; ClickSend;
             Settle 0 (Fulfilled (Some (lit "Navy."))); ClickClose; ClickCurate]) in
  let after := step before (Settle 0 (Fulfilled (Some outfit_only_reply))) in
  (exists v, JSON_parse outfit_only_reply = Some v
             /\ conforms responseSchema v = false
             /\ as_Recommendation v = None)
  /\ recommendation (state before) = Recommendation_value navy_suit
  /\ List.length (messages (state before)) = 3
  /\ recommendation (state after)
     = JObject [(lit "outfit", JString (lit "Navy suit"))]
  /\ recommendation (state after) <> recommendation (state before)
  /\ List.length (messages (state after)) = 1
  /\ messages (state after) <> messages (state before)
  /\ console after = [].
Proof.
  vm_compute.
  repeat split; try discriminate.
  eexists. repeat split.
Qed.

(** C5.  With the occasion or the weather unset, [generateRecommendation]
    returns at once: the state, the calls in flight and the console are
    what they were.  The button in front of it is disabled as well. *)
Theorem generateRecommendation_unset :
  forall w : World,
    occasion (state w) = None \/ weather (state w) = None ->
    generateRecommendation w = w
    /\ curate_disabled (state w) = true
    /\ step w ClickCurate = w.
Proof.
  intros w H.
  assert (E : negb (occasion_set (state w)) || negb (weather_set (state w)) = true).
  { unfold occasion_set, weather_set.
    destruct H as [-> | ->]; simpl; [reflexivity | apply orb_true_r]. }
  unfold step, curate_disabled, generateRecommendation. simpl.
  rewrite E. simpl. auto.
Qed.

Lemma generateRecommendation_unset_scenario :
  let w := run [ClickOccasion Wedding] in
  weather (state w) = None
  /\ generateRecommendation w = w
  /\ in_flight (generateRecommendation w) = [].
Proof.
  intros w.
  destruct (@generateRecommendation_unset w (or_intror eq_refl)) as [H _].
  rewrite H. repeat split.
Defined.

Lemma handleSendMessage_accepts (w : World) :
  trim (inputValue (state w)) <> [] ->
  chatLoading (state w) = false ->
  handleSendMessage w =
    await
      {| request :=
           ChatSendMessage MODEL
             (systemInstruction (occasion (state w)) (weather (state w))
                (recommendation (state w)))
             [] (inputValue (state w));
         continuation := handleSendMessage_rest |}
      (with_state (setChatLoading true)
         (with_state (setInputValue [])
            (with_state
               (updateMessages
                  (fun prev => prev ++ [ {| role := user;
                                            text := inputValue (state w) |} ]))
               w))).
Proof.
  intros Ht Hl. unfold handleSendMessage. simpl. rewrite Hl.
  destruct (trim (inputValue (state w))); [congruence | reflexivity].
Qed.

(** C7.  An accepted chat turn leaves a world in which the call is still
    in flight and the transcript already ends with a [user] message that
    carries the submitted text.  The system instruction of the call
    contains the text of the selected occasion, the text of the selected
    weather, and [JSON.stringify] of the whole recommendation cell. *)
Theorem handleSendMessage_accepted :
  forall w : World,
    trim (inputValue (state w)) <> [] ->
    chatLoading (state w) = false ->
    let s := state w in
    let w' := handleSendMessage w in
    messages (state w') = messages s ++ [ {| role := user; text := inputValue s |} ]
    /\ chatLoading (state w') = true
    /\ exists instruction : jsstring,
         in_flight w' =
           in_flight w
           ++ [ {| request := ChatSendMessage MODEL instruction [] (inputValue s);
                   continuation := handleSendMessage_rest |} ]
         /\ Contains instruction (Occasion_text (occasion s))
         /\ Contains instruction (Weather_text (weather s))
         /\ Contains instruction (JSON_stringify (recommendation s))
         /\ (forall o, occasion s = Some o -> Contains instruction (Occasion_string o))
         /\ (forall we, weather s = Some we -> Contains instruction (Weather_string we)).
Proof.
  intros w Ht Hl s w'. subst s w'.
  rewrite (handleSendMessage_accepts w Ht Hl). simpl.
  split; [reflexivity|]. split; [reflexivity|].
  eexists. split; [reflexivity|].
  assert (Ho : Contains (systemInstruction (occasion (state w)) (weather (state w))
                           (recommendation (state w)))
                 (Occasion_text (occasion (state w))))
    by apply Contains_infix.
  assert (Hw : Contains (systemInstruction (occasion (state w)) (weather (state w))
                           (recommendation (state w)))
                 (Weather_text (weather (state w))))
    by apply Contains_second_infix.
  repeat split; try assumption.
  - unfold systemInstruction. do 5 apply Contains_skip. apply Contains_here.
  - intros o E. rewrite E in Ho |- *. exact Ho.
  - intros we E. rewrite E in Hw |- *. exact Hw.
Qed.

Lemma handleSendMessage_accepted_scenario :
  let w := run (business_rainy_look ++ [ClickAskStylist; ChangeInput tie_question]) in
  exists instruction,
    messages (state (handleSendMessage w))
    = messages (state w) ++ [ {| role := user; text := tie_question |} ]
    /\ in_flight (handleSendMessage w)
       = [ {| request := ChatSendMessage MODEL instruction [] tie_question;
              continuation := handleSendMessage_rest |} ]
    /\ Contains instruction (lit "Business")
    /\ Contains instruction (lit "Rainy")
    /\ Contains instruction (JSON_stringify (Recommendation_value navy_suit)).
Proof.
  intros w.
  assert (Ht : trim (inputValue (state w)) <> []) by (vm_compute; discriminate).
  destruct (@handleSendMessage_accepted w Ht eq_refl)
    as [Hm [_ [instruction [Hf [Ho [Hw [Hr _]]]]]]].
  exists instruction. repeat split; assumption.
Defined.

(** The guard of [handleSendMessage]: with an input that is empty once
    trimmed, or with [chatLoading] set, the handler returns at once and
    the send button is disabled. *)
Lemma handleSendMessage_guard (w : World) :
  trim (inputValue (state w)) = [] \/ chatLoading (state w) = true ->
  handleSendMessage w = w /\ send_disabled (state w) = true.
Proof.
  intros H.
  assert (E : negb (string_truthy (Some (trim (inputValue (state w)))))
              || chatLoading (state w) = true).
  { destruct H as [-> | ->]; [reflexivity | apply orb_true_r]. }
  unfold handleSendMessage, send_disabled. cbv zeta. rewrite E. auto.
Qed.

(** C8.  When the call of an accepted chat turn settles, one [model]
    message is appended: the returned text when there is one and it is not
    empty, the fixed reply for an empty or absent text, the fixed apology
    when the call was rejected (which also writes one console line).
    In every case [chatLoading] is false afterwards and the call is no
    longer in flight. *)
Theorem handleSendMessage_settles :
  forall (w : World) (i : nat) (c : Call),
    nth_error (in_flight w) i = Some c ->
    continuation c = handleSendMessage_rest ->
    forall outcome : Outcome,
      let w' := settle i outcome w in
      chatLoading (state w') = false
      /\ in_flight w' = remove_nth i (in_flight w)
      /\ (forall c0 reply, outcome = Fulfilled (Some (c0 :: reply)) ->
            messages (state w')
            = messages (state w) ++ [ {| role := model; text := c0 :: reply |} ]
            /\ console w' = console w)
      /\ (outcome = Fulfilled (Some []) \/ outcome = Fulfilled None ->
            messages (state w')
            = messages (state w) ++ [ {| role := model; text := EMPTY_REPLY |} ]
            /\ console w' = console w)
      /\ (outcome = Rejected ->
            messages (state w')
            = messages (state w) ++ [ {| role := model; text := CHAT_FAILED |} ]
            /\ console w' = console w ++ [lit "Chat error:"]).
Proof.
  intros w i c Hi Hk outcome w'. subst w'.
  rewrite (settle_at _ _ _ _ Hi), Hk. unfold handleSendMessage_resume.
  destruct outcome as [[[|c1 t]|]|]; simpl; repeat split; intros;
    repeat match goal with
           | H : _ \/ _ |- _ => destruct H
           end;
    repeat split; congruence.
Qed.

Lemma handleSendMessage_settles_scenario :
  let w := run (business_rainy_look
                ++ [ClickAskStylist; ChangeInput tie_question; ClickSend]) in
  let failed := settle 0 Rejected w in
  let silent := settle 0 (Fulfilled None) w in
  chatLoading (state w) = true
  /\ chatLoading (state failed) = false
  /\ messages (state failed)
     = messages (state w) ++ [ {| role := model; text := CHAT_FAILED |} ]
  /\ chatLoading (state silent) = false
  /\ messages (state silent)
     = messages (state w) ++ [ {| role := model; text := EMPTY_REPLY |} ].
Proof.
  intros w failed silent.
  split; [vm_compute; reflexivity|].
  destruct (@handleSendMessage_settles w 0 _ eq_refl eq_refl Rejected)
    as [Hl [_ [_ [_ Hr]]]].
  destruct (@handleSendMessage_settles w 0 _ eq_refl eq_refl (Fulfilled None))
    as [Hl' [_ [_ [He _]]]].
  split; [exact Hl|]. split; [exact (proj1 (Hr eq_refl))|].
  split; [exact Hl'|]. exact (proj1 (He (or_intror eq_refl))).
Defined.

(** C10.  The call of an accepted chat turn is made of the model name, the
    system instruction, an empty history and the text just submitted.
    Two worlds that agree on the occasion, the weather, the recommendation
    and the input issue the same call, whatever their transcripts hold. *)
Theorem chat_call_ignores_transcript :
  forall w1 w2 : World,
    occasion (state w1) = occasion (state w2) ->
    weather (state w1) = weather (state w2) ->
    recommendation (state w1) = recommendation (state w2) ->
    inputValue (state w1) = inputValue (state w2) ->
    trim (inputValue (state w1)) <> [] ->
    chatLoading (state w1) = false ->
    chatLoading (state w2) = false ->
    exists instruction : jsstring,
      let c := {| request :=
                    ChatSendMessage MODEL instruction [] (inputValue (state w1));
                  continuation := handleSendMessage_rest |} in
      in_flight (handleSendMessage w1) = in_flight w1 ++ [c]
      /\ in_flight (handleSendMessage w2) = in_flight w2 ++ [c]
      /\ instruction
         = systemInstruction (occasion (state w1)) (weather (state w1))
             (recommendation (state w1)).
Proof.
  intros w1 w2 Ho Hw Hr Hi Ht Hl1 Hl2.
  assert (Ht2 : trim (inputValue (state w2)) <> []) by (rewrite <- Hi; exact Ht).
  rewrite (handleSendMessage_accepts w1 Ht Hl1), (handleSendMessage_accepts w2 Ht2 Hl2).
  rewrite <- Ho, <- Hw, <- Hr, <- Hi. simpl.
  eexists. repeat split.
Qed.

Lemma chat_call_ignores_transcript_scenario :
  let fresh := run (business_rainy_look
                    ++ [ClickAskStylist; ChangeInput tie_question]) in
  let later := run (business_rainy_look
                    ++ [ClickAskStylist; ChangeInput (lit "And shoes?"); ClickSend;
                        Settle 0 (Fulfilled (Some (lit "Oxfords.")));
                        ChangeInput tie_question]) in
  List.length (messages (state fresh)) = 1
  /\ List.length (messages (state later)) = 3
  /\ in_flight (handleSendMessage fresh) = in_flight (handleSendMessage later).
Proof.
  intros fresh later.
  assert (Ht : trim (inputValue (state fresh)) <> []) by (vm_compute; discriminate).
  destruct (chat_call_ignores_transcript fresh later
              eq_refl eq_refl eq_refl eq_refl Ht eq_refl eq_refl)
    as [instruction [H1 [H2 _]]].
  split; [reflexivity|]. split; [reflexivity|].
  rewrite H1, H2. reflexivity.
Defined.

(** ** The invariant *)

Lemma run_snoc (events : list Event) (e : Event) :
  run (events ++ [e]) = step (run events) e.
Proof. unfold run. now rewrite fold_left_app. Qed.

Lemma In_remove_nth {A : Type} (l : list A) :
  forall i x, In x (remove_nth i l) -> In x l.
Proof.
  induction l as [|y l IH]; intros [|i] x H; simpl in *; auto.
  destruct H as [H|H]; eauto.
Qed.

Lemma filter_nth_error_length {A : Type} (p : A -> bool) (l : list A) :
  forall i x, nth_error l i = Some x -> p x = true ->
    0 < List.length (filter p l).
Proof.
  induction l as [|y l IH]; intros [|i] x H Px; simpl in *; try discriminate.
  - inversion H; subst. rewrite Px. simpl. lia.
  - destruct (p y); simpl; [lia | eauto].
Qed.

Lemma snoc_not_nil {A : Type} (l : list A) (x : A) : l ++ [x] <> [].
Proof. destruct l; discriminate. Qed.

Lemma greets_snoc (l : list Message) (m : Message) :
  l <> [] ->
  (l = [] \/ exists o we rest, l = greeting_message o we :: rest) ->
  l ++ [m] = [] \/ exists o we rest, l ++ [m] = greeting_message o we :: rest.
Proof.
  intros Hne [H | [o [we [rest H]]]]; [contradiction|].
  right. exists o, we, (rest ++ [m]). now rewrite H.
Qed.

Lemma truthy_not_null (v : JSValue) : truthy v = true -> v <> JNull.
Proof. now destruct v. Qed.

(** A step that touches neither the calls nor the flags, the transcript
    or the recommendation. *)
Lemma Invariant_frame (w w' : World) :
  Invariant w ->
  in_flight w' = in_flight w ->
  loading (state w') = loading (state w) ->
  chatLoading (state w') = chatLoading (state w) ->
  messages (state w') = messages (state w) ->
  recommendation (state w') = recommendation (state w) ->
  (chatOpen (state w') = true -> messages (state w) <> []) ->
  occasion (state w') <> Some FormalEvent ->
  Invariant w'.
Proof.
  intros [I1 I2 I3 I4 I5 I6 I7 I8] Hf Hl Hc Hm Hr Ho Hocc.
  unfold count_calls in *.
  constructor; unfold count_calls; rewrite ?Hf, ?Hl, ?Hc, ?Hm, ?Hr; auto.
Qed.

Lemma Invariant_generateRecommendation (w : World) :
  Invariant w ->
  curate_disabled (state w) = false ->
  Invariant (generateRecommendation w).
Proof.
  intros [I1 I2 I3 I4 I5 I6 I7 I8] Hd.
  unfold curate_disabled in Hd.
  apply orb_false_iff in Hd as [Hd Hl].
  apply orb_false_iff in Hd as [Ho Hw].
  apply negb_false_iff in Ho, Hw.
  assert (Ho' := proj1 (occasion_set_iff _) Ho).
  assert (Hw' := proj1 (weather_set_iff _) Hw).
  destruct (occasion (state w)) as [o|] eqn:Eo; [|congruence].
  destruct (weather (state w)) as [we|] eqn:Ew; [|congruence].
  rewrite (generateRecommendation_issues w o we Eo Ew).
  unfold count_calls in *.
  constructor; unfold count_calls; simpl; rewrite ?filter_snoc_length; simpl;
    rewrite ?Eo; auto.
  - rewrite I1, Hl. reflexivity.
  - rewrite I2. lia.
  - intros c o0 we0 Hin Hk. apply in_app_or in Hin as [Hin | [<- | []]]; eauto.
    simpl in Hk. inversion Hk. eauto.
Qed.

Lemma Invariant_handleSendMessage (w : World) :
  Invariant w ->
  chatOpen (state w) = true ->
  Invariant (handleSendMessage w).
Proof.
  intros I Hopen.
  destruct (chatLoading (state w)) eqn:Hl.
  { now rewrite (proj1 (handleSendMessage_guard w (or_intror Hl))). }
  destruct (trim (inputValue (state w))) eqn:Ht.
  { now rewrite (proj1 (handleSendMessage_guard w (or_introl Ht))). }
  rewrite handleSendMessage_accepts by (rewrite ?Ht; congruence).
  destruct I as [I1 I2 I3 I4 I5 I6 I7 I8].
  unfold count_calls in *.
  constructor; unfold count_calls; simpl; rewrite ?filter_snoc_length; simpl;
    auto using snoc_not_nil, greets_snoc.
  - rewrite I1. lia.
  - rewrite I2, Hl. reflexivity.
  - intros c o0 we0 Hin Hk. apply in_app_or in Hin as [Hin | [<- | []]]; eauto.
    discriminate.
Qed.

Lemma Invariant_settle (w : World) (i : nat) (outcome : Outcome) :
  Invariant w -> Invariant (settle i outcome w).
Proof.
  intros I.
  destruct (nth_error (in_flight w) i) as [c|] eqn:Hi;
    [|unfold settle; now rewrite Hi].
  rewrite (settle_at _ _ _ _ Hi). cbv zeta.
  pose proof (filter_remove_nth_length
                (fun c => awaits_recommendation (continuation c)) _ _ _ Hi) as Hrec.
  pose proof (filter_remove_nth_length
                (fun c => awaits_chat (continuation c)) _ _ _ Hi) as Hchat.
  pose proof (filter_nth_error_length
                (fun c => awaits_recommendation (continuation c)) _ _ _ Hi) as Prec.
  pose proof (filter_nth_error_length
                (fun c => awaits_chat (continuation c)) _ _ _ Hi) as Pchat.
  assert (Hpair := fun o we =>
                     calls_have_a_pair w I c o we (nth_error_In _ _ Hi)).
  destruct I as [I1 I2 I3 I4 I5 I6 I7 I8]. unfold count_calls in *.
  destruct (continuation c) as [o we|] eqn:Hk; simpl in *.
  - destruct (Hpair o we eq_refl) as [o' [we' [-> ->]]].
    assert (Hl : loading (state w) = true).
    { destruct (loading (state w)); [reflexivity|]. specialize (Prec eq_refl). lia. }
    rewrite Hl in I1.
    unfold generateRecommendation_resume.
    destruct outcome as [t|];
      [destruct (JSON_parse (ToString_or_undefined t)) as [result|]|];
      constructor; unfold count_calls; simpl; rewrite ?Hrec, ?Hchat, ?I1, ?I2;
      auto; try lia; try discriminate;
      try (intros c0 o0 we0 Hin; apply In_remove_nth in Hin; eauto).
    right. exists o', we', []. reflexivity.
  - assert (Hl : chatLoading (state w) = true).
    { destruct (chatLoading (state w)); [reflexivity|]. specialize (Pchat eq_refl). lia. }
    rewrite Hl in I2. specialize (I8 Hl).
    unfold handleSendMessage_resume.
    destruct outcome as [t|];
      constructor; unfold count_calls; simpl; rewrite ?Hrec, ?Hchat, ?I1, ?I2;
      auto using snoc_not_nil, greets_snoc; try lia; try discriminate;
      try (intros c0 o0 we0 Hin; apply In_remove_nth in Hin; eauto).
Qed.

Ltac frame I :=
  apply (Invariant_frame _ _ I); simpl;
  try reflexivity;
  try exact (occasion_has_a_button _ I);
  try exact (chat_seeded _ I);
  try discriminate.

Lemma Invariant_step (w : World) (e : Event) :
  Invariant w -> Invariant (step w e).
Proof.
  intros I. destruct e as [o|we| | | | |value|key| |i outcome];
    unfold step; cbv zeta.
  - destruct (existsb (fun item => Occasion_eqb (label item) o) OCCASIONS) eqn:E;
      [|exact I].
    frame I. intros [= ->]. vm_compute in E. discriminate E.
  - destruct (existsb (fun item => Weather_eqb (label item) we) WEATHERS);
      [|exact I].
    frame I.
  - destruct (curate_disabled (state w)) eqn:E; [exact I|].
    now apply Invariant_generateRecommendation.
  - destruct (results_view (state w)) eqn:E; try exact I.
    frame I.
    intros _. apply (recommendation_seeds _ I), truthy_not_null.
    unfold results_view in E.
    destruct (truthy (recommendation (state w))); [reflexivity|].
    destruct (loading (state w)); discriminate.
  - destruct (chatOpen (state w)); [|exact I]. frame I.
  - destruct (chatOpen (state w)); [|exact I]. frame I.
  - destruct (chatOpen (state w)) eqn:E; [|exact I].
    frame I.
  - destruct (chatOpen (state w)) eqn:E; simpl; [|exact I].
    destruct (jsstring_eqb key (lit "Enter")); [|exact I].
    now apply Invariant_handleSendMessage.
  - destruct (chatOpen (state w)) eqn:E; simpl; [|exact I].
    destruct (negb (send_disabled (state w))); [|exact I].
    now apply Invariant_handleSendMessage.
  - now apply Invariant_settle.
Qed.

Lemma Invariant_initial : Invariant initial_world.
Proof.
  constructor; simpl; auto; try discriminate; try congruence.
  intros c o we [].
Qed.

Lemma Invariant_run (events : list Event) : Invariant (run events).
Proof.
  induction events as [|e events IH] using rev_ind.
  - exact Invariant_initial.
  - rewrite run_snoc. now apply Invariant_step.
Qed.

(** ** Properties of every reachable world *)

(** C9.  In every reachable world the number of recommendation calls in
    flight is one when [loading] is set and zero when it is not: the flag
    is up exactly while a call is out, and there are never two.  Step by
    step: the flag goes up only by a click on "Curate My Look", which
    issues the call in the same step; it goes down only when a
    recommendation call settles; and while it is up a click on the button
    does nothing. *)
Theorem loading_brackets_the_call :
  forall (events : list Event) (e : Event),
    let w := run events in
    let w' := step w e in
    count_calls awaits_recommendation w = (if loading (state w) then 1 else 0)
    /\ (loading (state w) = false -> loading (state w') = true ->
        e = ClickCurate
        /\ exists c, in_flight w' = in_flight w ++ [c]
                     /\ awaits_recommendation (continuation c) = true)
    /\ (loading (state w) = true -> loading (state w') = false ->
        exists i outcome c,
          e = Settle i outcome
          /\ nth_error (in_flight w) i = Some c
          /\ awaits_recommendation (continuation c) = true
          /\ in_flight w' = remove_nth i (in_flight w))
    /\ (loading (state w) = true -> e = ClickCurate -> w' = w).
Proof.
  intros events e w w'. subst w'.
  pose proof (Invariant_run events) as I. fold w in I.
  split; [exact (recommendation_calls _ I)|].
  generalize dependent w. intros w I.
  split; [|split].
  - intros Hoff Hon.
    destruct e as [o|we| | | | |value|key| |i outcome]; unfold step in *;
      cbv zeta in *;
      try (exfalso;
           repeat match type of Hon with
                  | context [if ?b then _ else _] => destruct b
                  | context [match ?v with EmptyView => _ | _ => _ end] => destruct v
                  end;
           simpl in Hon; congruence).
    + split; [reflexivity|].
      destruct (curate_disabled (state w)) eqn:E; [congruence|].
      unfold generateRecommendation in *.
      destruct (negb (occasion_set (state w)) || negb (weather_set (state w)));
        [congruence|].
      eexists. split; reflexivity.
    + exfalso. unfold handleSendMessage in Hon.
      repeat match type of Hon with
             | context [if ?b then _ else _] => destruct b
             end; simpl in Hon; congruence.
    + exfalso. unfold handleSendMessage in Hon.
      repeat match type of Hon with
             | context [if ?b then _ else _] => destruct b
             end; simpl in Hon; congruence.
    + exfalso. unfold settle in Hon.
      destruct (nth_error (in_flight w) i) as [c|]; [|congruence].
      destruct (continuation c); simpl in Hon; [discriminate|].
      unfold handleSendMessage_resume in Hon.
      destruct outcome; simpl in Hon; congruence.
  - intros Hon Hoff.
    destruct e as [o|we| | | | |value|key| |i outcome]; unfold step in *;
      cbv zeta in *;
      try (exfalso;
           repeat match type of Hoff with
                  | context [if ?b then _ else _] => destruct b
                  | context [match ?v with EmptyView => _ | _ => _ end] => destruct v
                  end;
           simpl in Hoff; congruence).
    + exfalso. unfold curate_disabled in Hoff. rewrite Hon, orb_true_r in Hoff.
      congruence.
    + exfalso. unfold handleSendMessage in Hoff.
      repeat match type of Hoff with
             | context [if ?b then _ else _] => destruct b
             end; simpl in Hoff; congruence.
    + exfalso. unfold handleSendMessage in Hoff.
      repeat match type of Hoff with
             | context [if ?b then _ else _] => destruct b
             end; simpl in Hoff; congruence.
    + destruct (nth_error (in_flight w) i) as [c|] eqn:Hi;
        [|unfold settle in Hoff; rewrite Hi in Hoff; congruence].
      exists i, outcome, c. rewrite (settle_at _ _ _ _ Hi) in *. cbv zeta in *.
      destruct (continuation c) eqn:Hk.
      * split; [reflexivity|]. split; [exact Hi|].
        split; [reflexivity|].
        unfold generateRecommendation_resume.
        destruct outcome as [t|];
          [destruct (JSON_parse (ToString_or_undefined t))|]; reflexivity.
      * exfalso. unfold handleSendMessage_resume in Hoff.
        destruct outcome; simpl in Hoff; congruence.
  - intros Hon ->. unfold step, curate_disabled. cbv zeta.
    now rewrite Hon, orb_true_r.
Qed.

Lemma loading_brackets_the_call_scenario :
  let w := run [ClickOccasion Business; ClickWeather Rainy; ClickCurate] in
  loading (state w) = true
  /\ count_calls awaits_recommendation w = 1
  /\ step w ClickCurate = w.
Proof.
  intros w.
  destruct (loading_brackets_the_call
              [ClickOccasion Business; ClickWeather Rainy; ClickCurate] ClickCurate)
    as [Hcount [_ [_ Hagain]]].
  split; [reflexivity|]. split; [exact Hcount|].
  exact (Hagain eq_refl eq_refl).
Defined.

(** C6.  A chat message that is empty once trimmed, or one sent while
    [chatLoading] is set, is dropped by [handleSendMessage] with the world
    as it was: no call issued, no message appended.  In a reachable world
    a chat call in flight means [chatLoading] is set, so this covers
    sending while an earlier chat call is outstanding, both from the Enter
    key and from the send button. *)
Theorem handleSendMessage_rejected :
  (forall w : World,
      trim (inputValue (state w)) = [] \/ chatLoading (state w) = true ->
      handleSendMessage w = w)
  /\ (forall (events : list Event) (e : Event),
        let w := run events in
        trim (inputValue (state w)) = [] \/ count_calls awaits_chat w <> 0 ->
        e = KeyDown (lit "Enter") \/ e = ClickSend ->
        handleSendMessage w = w /\ step w e = w).
Proof.
  split.
  - intros w H. exact (proj1 (handleSendMessage_guard w H)).
  - intros events e w H He.
    assert (G : trim (inputValue (state w)) = [] \/ chatLoading (state w) = true).
    { destruct H as [H|H]; [now left | right].
      pose proof (chat_calls _ (Invariant_run events)) as I. fold w in I.
      destruct (chatLoading (state w)); [reflexivity | congruence]. }
    destruct (handleSendMessage_guard w G) as [Hh Hd].
    split; [exact Hh|].
    destruct He as [-> | ->]; unfold step; cbv zeta; rewrite ?Hh, ?Hd;
      repeat match goal with
             | |- context [if ?b then _ else _] => destruct b
             end; reflexivity.
Qed.

Lemma handleSendMessage_rejected_scenario :
  let blank := run (business_rainy_look
                    ++ [ClickAskStylist; ChangeInput (lit "   ")]) in
  let busy := run (business_rainy_look
                   ++ [ClickAskStylist; ChangeInput tie_question; ClickSend;
                       ChangeInput (lit "And shoes?")]) in
  trim (inputValue (state blank)) = []
  /\ step blank (KeyDown (lit "Enter")) = blank
  /\ count_calls awaits_chat busy = 1
  /\ step busy (KeyDown (lit "Enter")) = busy.
Proof.
  intros blank busy.
  assert (Hblank : trim (inputValue (state blank)) = []) by (vm_compute; reflexivity).
  assert (Hbusy : count_calls awaits_chat busy = 1) by (vm_compute; reflexivity).
  destruct handleSendMessage_rejected as [_ H].
  split; [exact Hblank|].
  split; [exact (proj2 (H _ (KeyDown (lit "Enter")) (or_introl Hblank) (or_introl eq_refl)))|].
  split; [exact Hbusy|].
  refine (proj2 (H (business_rainy_look
                    ++ [ClickAskStylist; ChangeInput tie_question; ClickSend;
                        ChangeInput (lit "And shoes?")])
                   (KeyDown (lit "Enter")) (or_intror _) (or_introl eq_refl))).
  fold busy. rewrite Hbusy. discriminate.
Defined.







(** C3 at the input [Formal Event].  The [Occasion] type has seven
    members and the catalog six: [Formal Event] is a member with no
    button, a click on it cannot happen (the model leaves the world as it
    is), and no reachable world has it selected. *)
Theorem Formal_Event_has_no_button :
  (forall o : Occasion, In o all_occasions)
  /\ NoDup all_occasions
  /\ List.length all_occasions = 7
  /\ map label OCCASIONS = [Casual; Business; Wedding; DateNight; Party; OutdoorAdventure]
  /\ ~ In FormalEvent (map label OCCASIONS)
  /\ (forall o : Occasion, o <> FormalEvent -> In o (map label OCCASIONS))
  /\ (forall w : World, step w (ClickOccasion FormalEvent) = w)
  /\ (forall events : list Event, occasion (state (run events)) <> Some FormalEvent).
Proof.
  split; [intros []; simpl; tauto|].
  split; [repeat constructor; simpl; intuition discriminate|].
  split; [reflexivity|]. split; [reflexivity|].
  split; [simpl; intuition discriminate|].
  split; [intros [] H; simpl; tauto|].
  split; [reflexivity|].
  intros events. apply (occasion_has_a_button _ (Invariant_run events)).
Qed.

(** ** Further properties *)

(** Every weather has a button, and a click on it selects it. *)
Theorem WEATHERS_presents_every_weather :
  (forall we : Weather, In we all_weathers)
  /\ map label WEATHERS = all_weathers
  /\ forall (w : World) (we : Weather),
       weather (state (step w (ClickWeather we))) = Some we.
Proof.
  split; [intros []; simpl; tauto|]. split; [reflexivity|].
  intros w []; reflexivity.
Qed.

(** The results panel shows the loading view exactly while [loading] is
    set, and otherwise the result view or the empty view according to the
    truthiness of the recommendation cell. *)
Theorem results_view_cases :
  forall s : AppState,
    (results_view s = LoadingView <-> loading s = true)
    /\ (results_view s = ResultView
        <-> truthy (recommendation s) = true /\ loading s = false)
    /\ (results_view s = EmptyView
        <-> truthy (recommendation s) = false /\ loading s = false).
Proof.
  intros s. unfold results_view.
  destruct (truthy (recommendation s)), (loading s); simpl;
    repeat split; intros; try discriminate; try reflexivity;
    repeat match goal with
           | H : _ /\ _ |- _ => destruct H
           end; discriminate.
Qed.

(** In every reachable world the number of chat calls in flight is one
    when [chatLoading] is set and zero when it is not. *)
Theorem chatLoading_brackets_the_call :
  forall events : list Event,
    count_calls awaits_chat (run events)
    = if chatLoading (state (run events)) then 1 else 0.
Proof. intros events. apply (chat_calls _ (Invariant_run events)). Qed.

(** The first scenario of the spec, end to end: the four fields read back
    as sent, the transcript is the greeting for Business and Rainy, the
    result view is shown and no call is left in flight. *)
Theorem business_rainy_look_end_to_end :
  let w := run business_rainy_look in
  as_Recommendation (recommendation (state w)) = Some navy_suit
  /\ messages (state w) = [greeting_message Business Rainy]
  /\ results_view (state w) = ResultView
  /\ in_flight w = []
  /\ console w = [].
Proof. vm_compute. repeat split. Qed.

(** The second scenario: with the look in place, the question is in the
    transcript as soon as it is sent, and the reply follows it once the
    call settles. *)
Theorem tie_question_end_to_end :
  let asked := run (business_rainy_look
                    ++ [ClickAskStylist; ChangeInput tie_question; ClickSend]) in
  let answered := step asked (Settle 0 (Fulfilled (Some (lit "Navy.")))) in
  messages (state asked)
  = [greeting_message Business Rainy; {| role := user; text := tie_question |}]
  /\ count_calls awaits_chat asked = 1
  /\ inputValue (state asked) = []
  /\ messages (state answered)
     = [greeting_message Business Rainy; {| role := user; text := tie_question |};
        {| role := model; text := lit "Navy." |}]
  /\ chatLoading (state answered) = false.
Proof. vm_compute. repeat split. Qed.

(** ** The guards and the buttons in front of them *)

Lemma trimStart_nil_iff (s : jsstring) :
  trimStart s = [] <-> forallb is_whitespace s = true.
Proof.
  induction s as [|c s IH]; simpl; [tauto|].
  destruct (is_whitespace c); simpl; [exact IH | split; discriminate].
Qed.

Lemma trimStart_all_whitespace (s : jsstring) :
  forallb is_whitespace (trimStart s) = true -> trimStart s = [].
Proof.
  induction s as [|c s IH]; simpl; [reflexivity|].
  destruct (is_whitespace c) eqn:E; [exact IH|].
  simpl. rewrite E. discriminate.
Qed.

Lemma forallb_rev {A : Type} (p : A -> bool) (l : list A) :
  forallb p (rev l) = forallb p l.
Proof.
  induction l as [|x l IH]; simpl; [reflexivity|].
  rewrite forallb_app, IH. simpl. rewrite andb_true_r. apply andb_comm.
Qed.

(** [trim] leaves nothing exactly when every code unit is white space. *)
Lemma trim_nil_iff (s : jsstring) :
  trim s = [] <-> forallb is_whitespace s = true.
Proof.
  unfold trim, trimEnd. split.
  - intros H. apply (f_equal (@rev N)) in H. rewrite rev_involutive in H.
    simpl in H. apply trimStart_nil_iff in H. rewrite forallb_rev in H.
    apply trimStart_nil_iff. now apply trimStart_all_whitespace.
  - intros H. apply trimStart_nil_iff in H. rewrite H. reflexivity.
Qed.

Lemma send_disabled_drops (w : World) :
  send_disabled (state w) = true -> handleSendMessage w = w.
Proof.
  intros H. unfold send_disabled in H. apply orb_true_iff in H.
  apply handleSendMessage_guard. destruct H as [H|H]; [left | now right].
  destruct (trim (inputValue (state w))); [reflexivity | discriminate].
Qed.

(** The send button is disabled exactly when [handleSendMessage] would
    drop the message, and that is exactly when the input holds nothing
    but white space or a chat call is out. *)
Theorem send_button_matches_the_handler :
  forall w : World,
    (send_disabled (state w) = true <-> handleSendMessage w = w)
    /\ send_disabled (state w)
       = forallb is_whitespace (inputValue (state w)) || chatLoading (state w).
Proof.
  intros w.
  assert (E : send_disabled (state w)
              = forallb is_whitespace (inputValue (state w))
                || chatLoading (state w)).
  { unfold send_disabled. f_equal.
    destruct (forallb is_whitespace (inputValue (state w))) eqn:F.
    - apply trim_nil_iff in F. now rewrite F.
    - destruct (trim (inputValue (state w))) eqn:T; [|reflexivity].
      apply trim_nil_iff in T. congruence. }
  split; [|exact E]. split.
  - intros H. unfold send_disabled in H. apply orb_true_iff in H.
    apply handleSendMessage_guard. destruct H as [H|H]; [left | now right].
    destruct (trim (inputValue (state w))); [reflexivity | discriminate].
  - intros H. destruct (send_disabled (state w)) eqn:D; [reflexivity|].
    exfalso. unfold send_disabled in D. apply orb_false_iff in D as [D1 D2].
    assert (T : trim (inputValue (state w)) <> []).
    { destruct (trim (inputValue (state w))); [discriminate | congruence]. }
    rewrite (handleSendMessage_accepts w T D2) in H.
    apply (f_equal (fun x => List.length (in_flight x))) in H.
    simpl in H. rewrite length_app in H. simpl in H. lia.
Qed.

(** [generateRecommendation] itself does not look at [loading]: called
    with both selections set it issues a call whether one is out or not.
    Only the disabled button keeps the calls apart. *)
Theorem generateRecommendation_has_no_loading_guard :
  forall (w : World) (o : Occasion) (we : Weather),
    occasion (state w) = Some o ->
    weather (state w) = Some we ->
    count_calls awaits_recommendation (generateRecommendation w)
    = S (count_calls awaits_recommendation w)
    /\ loading (state (generateRecommendation w)) = true.
Proof.
  intros w o we Ho Hw. rewrite (generateRecommendation_issues w o we Ho Hw).
  unfold count_calls. simpl. rewrite filter_snoc_length. simpl. split; [lia|reflexivity].
Qed.

Lemma generateRecommendation_has_no_loading_guard_scenario :
  let w := run [ClickOccasion Business; ClickWeather Rainy; ClickCurate] in
  loading (state w) = true
  /\ count_calls awaits_recommendation (generateRecommendation w) = 2.
Proof.
  intros w. split; [reflexivity|].
  destruct (generateRecommendation_has_no_loading_guard w Business Rainy
              eq_refl eq_refl) as [H _].
  rewrite H. reflexivity.
Defined.

(** Clicking "Curate My Look" twice, pressing Enter twice or clicking the
    send button twice does what doing it once does: the second event
    finds its flag set. *)
Theorem double_submit_is_dropped :
  forall w : World,
    step (step w ClickCurate) ClickCurate = step w ClickCurate
    /\ step (step w (KeyDown (lit "Enter"))) (KeyDown (lit "Enter"))
       = step w (KeyDown (lit "Enter"))
    /\ step (step w ClickSend) ClickSend = step w ClickSend.
Proof.
  intros w.
  assert (Hh : forall v, chatLoading (state v) = false ->
                 trim (inputValue (state v)) <> [] ->
                 handleSendMessage (handleSendMessage v) = handleSendMessage v).
  { intros v Hl Ht. apply handleSendMessage_guard. right.
    now rewrite (handleSendMessage_accepts v Ht Hl). }
  assert (Hs : forall v, handleSendMessage (handleSendMessage v) = handleSendMessage v
                         /\ chatOpen (state (handleSendMessage v)) = chatOpen (state v)
                         /\ (send_disabled (state v) = false ->
                             send_disabled (state (handleSendMessage v)) = true)).
  { intros v. destruct (chatLoading (state v)) eqn:Hl.
    { destruct (handleSendMessage_guard v (or_intror Hl)) as [E D].
      rewrite !E. repeat split. intros; congruence. }
    destruct (trim (inputValue (state v))) eqn:Ht.
    { destruct (handleSendMessage_guard v (or_introl Ht)) as [E D].
      rewrite !E. repeat split. intros; congruence. }
    assert (Ht' : trim (inputValue (state v)) <> []) by (rewrite Ht; discriminate).
    split; [now apply Hh|].
    rewrite (handleSendMessage_accepts v Ht' Hl). simpl. split; [reflexivity|].
    intros _. unfold send_disabled. simpl. rewrite ?orb_true_r. reflexivity. }
  split; [|split].
  - unfold step at 2. cbv zeta.
    destruct (curate_disabled (state w)) eqn:D.
    + unfold step. cbv zeta. now rewrite D.
    + unfold step. cbv zeta. rewrite D.
      unfold curate_disabled in D.
      apply orb_false_iff in D as [D _]. apply orb_false_iff in D as [Do Dw].
      unfold generateRecommendation. cbv zeta. rewrite Do, Dw. simpl.
      unfold curate_disabled. simpl. now rewrite orb_true_r.
  - unfold step. cbv zeta. simpl.
    destruct (chatOpen (state w)) eqn:O; simpl; [|now rewrite O].
    destruct (Hs w) as [E [O' _]]. now rewrite O', O, E.
  - unfold step. cbv zeta.
    destruct (chatOpen (state w)) eqn:O; simpl; [|now rewrite O].
    destruct (send_disabled (state w)) eqn:D; simpl; [now rewrite O, D|].
    destruct (Hs w) as [E [O' D']]. now rewrite O', O, (D' D).
Qed.

(** ** Who writes which cell *)

Ltac step_cases :=
  unfold step, generateRecommendation, handleSendMessage; cbv zeta;
  repeat match goal with
         | |- context [if ?b then _ else _] => destruct b eqn:?
         | |- context [match results_view ?s with _ => _ end] =>
             destruct (results_view s) eqn:?
         end.

(** The recommendation cell has one writer: it changes only when a
    recommendation call is fulfilled with text that [JSON.parse] accepts,
    and then to the parsed value.  No selection, chat turn, failed call
    or chat reply touches it, and it is never cleared. *)
Theorem recommendation_has_one_writer :
  forall (w : World) (e : Event),
    recommendation (state (step w e)) = recommendation (state w)
    \/ exists i body c o we result,
         e = Settle i (Fulfilled body)
         /\ nth_error (in_flight w) i = Some c
         /\ continuation c = generateRecommendation_rest o we
         /\ JSON_parse (ToString_or_undefined body) = Some result
         /\ recommendation (state (step w e)) = result.
Proof.
  intros w e.
  destruct e as [o|we| | | | |value|key| |i outcome];
    try (left; step_cases; reflexivity).
  unfold step.
  destruct (nth_error (in_flight w) i) as [c|] eqn:Hi;
    [|left; unfold settle; now rewrite Hi].
  rewrite (settle_at _ _ _ _ Hi). cbv zeta.
  destruct (continuation c) as [o we|] eqn:Hk.
  - unfold generateRecommendation_resume.
    destruct outcome as [t|]; [|left; reflexivity].
    destruct (JSON_parse (ToString_or_undefined t)) as [result|] eqn:Hp;
      [|left; reflexivity].
    right. exists i, t, c, o, we, result. repeat split; assumption.
  - left. unfold handleSendMessage_resume. destruct outcome; reflexivity.
Qed.

(** The transcript only grows, one message at a time, until a parsed
    recommendation reply replaces it by the greeting: a step leaves it as
    it is, or appends the [user] message of an accepted send, or appends
    the [model] message of a settled chat call, or resets it. *)
Theorem transcript_grows_or_is_reset :
  forall (w : World) (e : Event),
    let before := messages (state w) in
    let after := messages (state (step w e)) in
    after = before
    \/ ((e = KeyDown (lit "Enter") \/ e = ClickSend)
        /\ chatOpen (state w) = true
        /\ send_disabled (state w) = false
        /\ after = before ++ [ {| role := user; text := inputValue (state w) |} ])
    \/ (exists i outcome c reply,
          e = Settle i outcome
          /\ nth_error (in_flight w) i = Some c
          /\ continuation c = handleSendMessage_rest
          /\ after = before ++ [ {| role := model; text := reply |} ])
    \/ (exists i body c o we result,
          e = Settle i (Fulfilled body)
          /\ nth_error (in_flight w) i = Some c
          /\ continuation c = generateRecommendation_rest o we
          /\ JSON_parse (ToString_or_undefined body) = Some result
          /\ after = [ {| role := model; text := greeting o we |} ]).
Proof.
  intros w e before after. subst before after.
  destruct e as [o|we| | | | |value|key| |i outcome];
    try (left; step_cases; reflexivity).
  - unfold step. cbv zeta.
    destruct (chatOpen (state w)) eqn:O; simpl; [|now left].
    destruct (jsstring_eqb key (lit "Enter")) eqn:K; [|now left].
    destruct (send_disabled (state w)) eqn:D.
    + left. apply send_disabled_drops in D. now rewrite D.
    + right. left.
      assert (key = lit "Enter").
      { clear - K. revert K. generalize (lit "Enter").
        induction key as [|x key IH]; intros [|y l]; simpl; try discriminate;
          [reflexivity|].
        intros H. apply andb_true_iff in H as [H1 H2].
        apply N.eqb_eq in H1. subst. f_equal. now apply IH. }
      subst key. repeat split; auto.
      unfold send_disabled in D. apply orb_false_iff in D as [D1 D2].
      rewrite handleSendMessage_accepts; [reflexivity| |exact D2].
      destruct (trim (inputValue (state w))); [discriminate | congruence].
  - unfold step. cbv zeta.
    destruct (chatOpen (state w)) eqn:O; simpl; [|now left].
    destruct (send_disabled (state w)) eqn:D; simpl; [now left|].
    right. left. repeat split; auto.
    unfold send_disabled in D. apply orb_false_iff in D as [D1 D2].
    rewrite handleSendMessage_accepts; [reflexivity| |exact D2].
    destruct (trim (inputValue (state w))); [discriminate | congruence].
  - unfold step.
    destruct (nth_error (in_flight w) i) as [c|] eqn:Hi;
      [|left; unfold settle; now rewrite Hi].
    rewrite (settle_at _ _ _ _ Hi). cbv zeta.
    destruct (continuation c) as [o we|] eqn:Hk.
    + unfold generateRecommendation_resume.
      destruct outcome as [t|]; [|left; reflexivity].
      destruct (JSON_parse (ToString_or_undefined t)) as [result|] eqn:Hp;
        [|left; reflexivity].
      right. right. right. exists i, t, c, o, we, result.
      repeat split; assumption.
    + right. right. left. unfold handleSendMessage_resume.
      destruct outcome as [t|]; eexists i, _, c, _;
        (split; [reflexivity|]); (split; [exact Hi|]);
        (split; [exact Hk|]); reflexivity.
Qed.

Lemma settle_keeps_selection (w : World) (i : nat) (outcome : Outcome) :
  occasion (state (settle i outcome w)) = occasion (state w)
  /\ weather (state (settle i outcome w)) = weather (state w).
Proof.
  destruct (nth_error (in_flight w) i) as [c|] eqn:Hi;
    [|unfold settle; rewrite Hi; auto].
  rewrite (settle_at _ _ _ _ Hi). cbv zeta.
  destruct (continuation c);
    unfold generateRecommendation_resume, handleSendMessage_resume;
    destruct outcome as [t|];
    try destruct (JSON_parse (ToString_or_undefined t)); auto.
Qed.

Lemma step_keeps_selection_set (w : World) (e : Event) :
  (occasion (state (step w e)) = None -> occasion (state w) = None)
  /\ (weather (state (step w e)) = None -> weather (state w) = None).
Proof.
  destruct e as [o|we| | | | |value|key| |i outcome];
    try (split; step_cases; simpl; auto; discriminate).
  unfold step. destruct (settle_keeps_selection w i outcome) as [-> ->]. auto.
Qed.

(** A selection changes only by a click on one of its buttons, to the
    label of that button, and once made it is never unset. *)
Theorem selection_changes_only_by_its_buttons :
  forall (w : World) (e : Event),
    (occasion (state (step w e)) = occasion (state w)
     \/ exists o, e = ClickOccasion o /\ In o (map label OCCASIONS)
                  /\ occasion (state (step w e)) = Some o)
    /\ (weather (state (step w e)) = weather (state w)
        \/ exists we, e = ClickWeather we /\ In we (map label WEATHERS)
                      /\ weather (state (step w e)) = Some we)
    /\ (occasion (state (step w e)) = None -> occasion (state w) = None)
    /\ (weather (state (step w e)) = None -> weather (state w) = None).
Proof.
  intros w e.
  assert (Hsettle : forall i outcome,
             occasion (state (settle i outcome w)) = occasion (state w)
             /\ weather (state (settle i outcome w)) = weather (state w)).
  { intros i outcome.
    destruct (nth_error (in_flight w) i) as [c|] eqn:Hi;
      [|unfold settle; rewrite Hi; auto].
    rewrite (settle_at _ _ _ _ Hi). cbv zeta.
    destruct (continuation c);
      unfold generateRecommendation_resume, handleSendMessage_resume;
      destruct outcome as [t|];
      try destruct (JSON_parse (ToString_or_undefined t)); auto. }
  destruct e as [o|we| | | | |value|key| |i outcome];
    try (repeat split; try left; step_cases; simpl; auto; fail).
  - unfold step. cbv zeta.
    destruct (existsb (fun item => Occasion_eqb (label item) o) OCCASIONS) eqn:E;
      [|repeat split; auto].
    repeat split; simpl; auto; try discriminate.
    right. exists o. repeat split.
    destruct o; try (simpl; tauto). vm_compute in E. discriminate E.
  - unfold step. cbv zeta.
    destruct (existsb (fun item => Weather_eqb (label item) we) WEATHERS) eqn:E;
      [|repeat split; auto].
    repeat split; simpl; auto; try discriminate.
    right. exists we. repeat split. destruct we; simpl; tauto.
  - unfold step. destruct (Hsettle i outcome) as [-> ->]. auto.
Qed.

(** Nothing is written to the console but the line of a failed call: one
    line when a recommendation call is rejected or answers with text that
    is not JSON, one line when a chat call is rejected. *)
Theorem console_records_failed_calls :
  forall (w : World) (e : Event),
    console (step w e) = console w
    \/ exists i outcome c,
         e = Settle i outcome
         /\ nth_error (in_flight w) i = Some c
         /\ ((awaits_recommendation (continuation c) = true
              /\ (outcome = Rejected
                  \/ exists t, outcome = Fulfilled t
                               /\ JSON_parse (ToString_or_undefined t) = None)
              /\ console (step w e)
                 = console w ++ [lit "Error generating recommendation:"])
             \/ (awaits_chat (continuation c) = true
                 /\ outcome = Rejected
                 /\ console (step w e) = console w ++ [lit "Chat error:"])).
Proof.
  intros w e.
  destruct e as [o|we| | | | |value|key| |i outcome];
    try (left; step_cases; reflexivity).
  unfold step.
  destruct (nth_error (in_flight w) i) as [c|] eqn:Hi;
    [|left; unfold settle; now rewrite Hi].
  rewrite (settle_at _ _ _ _ Hi). cbv zeta.
  destruct (continuation c) as [o we|] eqn:Hk.
  - unfold generateRecommendation_resume.
    destruct outcome as [t|].
    + destruct (JSON_parse (ToString_or_undefined t)) as [result|] eqn:Hp;
        [left; reflexivity|].
      right. exists i, (Fulfilled t), c. rewrite Hk.
      split; [reflexivity|]. split; [exact Hi|]. left.
      split; [reflexivity|]. split; [|reflexivity].
      right. exists t. auto.
    + right. exists i, Rejected, c. rewrite Hk.
      split; [reflexivity|]. split; [exact Hi|]. left.
      split; [reflexivity|]. split; [now left | reflexivity].
  - unfold handleSendMessage_resume. destruct outcome as [t|]; [left; reflexivity|].
    right. exists i, Rejected, c. rewrite Hk.
    split; [reflexivity|]. split; [exact Hi|]. right. repeat split.
Qed.

(** The chat drawer has two states.  It opens only by the "Ask Stylist"
    button, which is there only in the result view; it closes only by the
    backdrop or the close button; no call, selection or chat turn opens or
    closes it. *)
Theorem chat_drawer_transitions :
  forall (w : World) (e : Event),
    chatOpen (state (step w e)) = chatOpen (state w)
    \/ (e = ClickAskStylist
        /\ results_view (state w) = ResultView
        /\ chatOpen (state w) = false /\ chatOpen (state (step w e)) = true)
    \/ ((e = ClickBackdrop \/ e = ClickClose)
        /\ chatOpen (state w) = true /\ chatOpen (state (step w e)) = false).
Proof.
  intros w e.
  destruct e as [o|we| | | | |value|key| |i outcome];
    try (left; step_cases; simpl; congruence).
  - unfold step. cbv zeta. destruct (results_view (state w)) eqn:V; try now left.
    destruct (chatOpen (state w)) eqn:O; [left; simpl; congruence|].
    right. left. auto.
  - unfold step. cbv zeta. destruct (chatOpen (state w)) eqn:O; [|left; congruence].
    right. right. auto.
  - unfold step. cbv zeta. destruct (chatOpen (state w)) eqn:O; [|left; congruence].
    right. right. auto.
  - unfold step. left.
    destruct (nth_error (in_flight w) i) as [c|] eqn:Hi;
      [|unfold settle; now rewrite Hi].
    rewrite (settle_at _ _ _ _ Hi). cbv zeta.
    destruct (continuation c);
      unfold generateRecommendation_resume, handleSendMessage_resume;
      destruct outcome as [t|];
      try destruct (JSON_parse (ToString_or_undefined t)); reflexivity.
Qed.

(** ** More on reachable worlds *)

Lemma Forall_remove_nth {A : Type} (P : A -> Prop) (l : list A) (i : nat) :
  Forall P l -> Forall P (remove_nth i l).
Proof.
  intros H. apply Forall_forall. intros x Hx.
  apply In_remove_nth in Hx. revert x Hx. now apply Forall_forall.
Qed.

Lemma occasion_in_catalog (o : Occasion) :
  o <> FormalEvent -> In o (map label OCCASIONS).
Proof. destruct o; simpl; tauto. Qed.

Lemma weather_in_catalog (we : Weather) : In we (map label WEATHERS).
Proof. destruct we; simpl; tauto. Qed.

Lemma enabled_send_has_text (s : AppState) :
  send_disabled s = false ->
  trim (inputValue s) <> [] /\ chatLoading s = false.
Proof.
  unfold send_disabled. intros D. apply orb_false_iff in D as [D1 D2].
  split; [|exact D2].
  destruct (trim (inputValue s)); [discriminate | congruence].
Qed.

(** Once there is a transcript or a recommendation call is out, both
    selections are made; and every call in flight is an expected one. *)
Lemma selected_and_expected (events : list Event) :
  (messages (state (run events)) <> [] \/ loading (state (run events)) = true ->
   occasion (state (run events)) <> None /\ weather (state (run events)) <> None)
  /\ Forall expected_call (in_flight (run events)).
Proof.
  induction events as [|e events IH] using rev_ind.
  { split; [intros [H|H]; [now elim H | discriminate] | constructor]. }
  rewrite run_snoc.
  pose proof (Invariant_run events) as I.
  set (w := run events) in *. destruct IH as [Hsel Hcalls].
  destruct (step_keeps_selection_set w e) as [Ho Hw].
  assert (Keep : messages (state w) <> [] \/ loading (state w) = true ->
                 occasion (state (step w e)) <> None
                 /\ weather (state (step w e)) <> None).
  { intros H. destruct (Hsel H). split; auto. }
  assert (Sent : chatOpen (state w) = true -> send_disabled (state w) = false ->
                 (messages (state (handleSendMessage w)) <> []
                  \/ loading (state (handleSendMessage w)) = true ->
                  occasion (state (handleSendMessage w)) <> None
                  /\ weather (state (handleSendMessage w)) <> None)
                 /\ Forall expected_call (in_flight (handleSendMessage w))).
  { intros Open D. apply enabled_send_has_text in D as [T L].
    destruct (Hsel (or_introl (chat_seeded _ I Open))) as [So Sw].
    rewrite (handleSendMessage_accepts w T L). simpl.
    split; [intros _; now split|].
    apply Forall_app. split; [exact Hcalls|]. constructor; [|constructor].
    unfold expected_call. simpl.
    destruct (occasion (state w)) as [o|]; [|congruence].
    destruct (weather (state w)) as [we|]; [|congruence].
    exists o, we, (recommendation (state w)), (inputValue (state w)). auto. }
  destruct e as [o|we| | | | |value|key| |i outcome].
  - split; [|unfold step; cbv zeta; destruct (existsb _ _); exact Hcalls].
    intros H. apply Keep. unfold step in H. cbv zeta in H.
    destruct (existsb _ _); exact H.
  - split; [|unfold step; cbv zeta; destruct (existsb _ _); exact Hcalls].
    intros H. apply Keep. unfold step in H. cbv zeta in H.
    destruct (existsb _ _); exact H.
  - unfold step. cbv zeta.
    destruct (curate_disabled (state w)) eqn:D; [now split|].
    unfold curate_disabled in D.
    apply orb_false_iff in D as [D _]. apply orb_false_iff in D as [Do Dw].
    apply negb_false_iff in Do, Dw.
    apply occasion_set_iff in Do. apply weather_set_iff in Dw.
    destruct (occasion (state w)) as [o|] eqn:Eo; [|congruence].
    destruct (weather (state w)) as [we|] eqn:Ew; [|congruence].
    rewrite (generateRecommendation_issues w o we Eo Ew). simpl.
    split; [rewrite Eo, Ew; split; discriminate|].
    apply Forall_app. split; [exact Hcalls|]. constructor; [|constructor].
    unfold expected_call. simpl. split; [reflexivity|].
    split; [|apply weather_in_catalog].
    apply occasion_in_catalog. intros ->.
    apply (occasion_has_a_button _ I). exact Eo.
  - split; [|unfold step; cbv zeta; destruct (results_view _); exact Hcalls].
    intros H. apply Keep. unfold step in H. cbv zeta in H.
    destruct (results_view _); exact H.
  - split; [|unfold step; cbv zeta; destruct (chatOpen _); exact Hcalls].
    intros H. apply Keep. unfold step in H. cbv zeta in H.
    destruct (chatOpen _); exact H.
  - split; [|unfold step; cbv zeta; destruct (chatOpen _); exact Hcalls].
    intros H. apply Keep. unfold step in H. cbv zeta in H.
    destruct (chatOpen _); exact H.
  - split; [|unfold step; cbv zeta; destruct (chatOpen _); exact Hcalls].
    intros H. apply Keep. unfold step in H. cbv zeta in H.
    destruct (chatOpen _); exact H.
  - unfold step. cbv zeta.
    destruct (chatOpen (state w)) eqn:Open; simpl; [|now split].
    destruct (jsstring_eqb key (lit "Enter")); [|now split].
    destruct (send_disabled (state w)) eqn:D; [|now apply Sent].
    apply send_disabled_drops in D. rewrite D. now split.
  - unfold step. cbv zeta.
    destruct (chatOpen (state w)) eqn:Open; simpl; [|now split].
    destruct (send_disabled (state w)) eqn:D; simpl; [now split|].
    now apply Sent.
  - unfold step in *.
    destruct (nth_error (in_flight w) i) as [c|] eqn:Hi;
      [|unfold settle; rewrite Hi; now split].
    assert (Sel : occasion (state w) <> None /\ weather (state w) <> None).
    { pose proof (recommendation_calls _ I) as C1.
      pose proof (chat_calls _ I) as C2. unfold count_calls in C1, C2.
      destruct (continuation c) eqn:Hk.
      - pose proof (filter_nth_error_length
                      (fun c => awaits_recommendation (continuation c)) _ _ _ Hi) as P.
        cbv beta in P. rewrite Hk in P. specialize (P eq_refl).
        apply Hsel. right. destruct (loading (state w)); [reflexivity | lia].
      - pose proof (filter_nth_error_length
                      (fun c => awaits_chat (continuation c)) _ _ _ Hi) as P.
        cbv beta in P. rewrite Hk in P. specialize (P eq_refl).
        apply Hsel. left. apply (chat_call_seeded _ I).
        destruct (chatLoading (state w)); [reflexivity | lia]. }
    split; [intros _; destruct Sel; split; auto|].
    rewrite (settle_at _ _ _ _ Hi). cbv zeta.
    destruct (continuation c);
      unfold generateRecommendation_resume, handleSendMessage_resume;
      destruct outcome as [t|];
      try destruct (JSON_parse (ToString_or_undefined t)); simpl;
      now apply Forall_remove_nth.
Qed.

(** In every reachable world at most two calls are in flight, and each is
    an expected one: a recommendation call asks for a look for a pair that
    has buttons (so never for Formal Event, and never with a selection
    missing), a chat call carries a non-blank message, no history, and a
    system instruction naming a selected pair. *)
Theorem calls_in_flight_are_expected :
  forall events : list Event,
    Forall expected_call (in_flight (run events))
    /\ List.length (in_flight (run events)) <= 2.
Proof.
  intros events. split; [apply selected_and_expected|].
  pose proof (Invariant_run events) as I.
  pose proof (recommendation_calls _ I) as C1.
  pose proof (chat_calls _ I) as C2. unfold count_calls in C1, C2.
  assert (L : forall l : list Call,
             List.length l
             = List.length (filter (fun c => awaits_recommendation (continuation c)) l)
               + List.length (filter (fun c => awaits_chat (continuation c)) l)).
  { induction l as [|c l IHl]; simpl; [reflexivity|].
    destruct (continuation c); simpl; lia. }
  rewrite (L (in_flight (run events))), C1, C2.
  destruct (loading _), (chatLoading _); simpl; lia.
Qed.

(** Whenever the chat drawer is open the transcript starts with a
    greeting, and both selections are made. *)
Theorem open_chat_has_a_greeting :
  forall events : list Event,
    chatOpen (state (run events)) = true ->
    (exists o we rest,
        messages (state (run events)) = greeting_message o we :: rest)
    /\ occasion (state (run events)) <> None
    /\ weather (state (run events)) <> None.
Proof.
  intros events Open.
  pose proof (Invariant_run events) as I.
  pose proof (chat_seeded _ I Open) as Hne.
  split; [|apply selected_and_expected; now left].
  destruct (transcript_greets _ I) as [H|H]; [contradiction | exact H].
Qed.

Lemma open_chat_has_a_greeting_scenario :
  let w := run (business_rainy_look ++ [ClickAskStylist]) in
  chatOpen (state w) = true
  /\ exists o we rest, messages (state w) = greeting_message o we :: rest.
Proof.
  intros w. split; [reflexivity|].
  exact (proj1 (open_chat_has_a_greeting
                  (business_rainy_look ++ [ClickAskStylist]) eq_refl)).
Defined.

(** In every reachable world the occasion buttons drawn highlighted are
    the one for the selected occasion, or none when nothing is selected;
    the same holds for the weather buttons, in every state.  The labels of
    a catalog, which are the keys of its buttons, are pairwise distinct. *)
Theorem one_button_is_highlighted :
  (forall events : list Event,
      map label (filter (occasion_highlighted (state (run events))) OCCASIONS)
      = match occasion (state (run events)) with Some o => [o] | None => [] end)
  /\ (forall s : AppState,
        map label (filter (weather_highlighted s) WEATHERS)
        = match weather s with Some we => [we] | None => [] end)
  /\ NoDup (map label OCCASIONS) /\ NoDup (map label WEATHERS).
Proof.
  split; [|split; [|split]].
  - intros events.
    pose proof (occasion_has_a_button _ (Invariant_run events)) as H.
    unfold occasion_highlighted.
    destruct (occasion (state (run events))) as [[]|]; try reflexivity. congruence.
  - intros s. unfold weather_highlighted.
    destruct (weather s) as [[]|]; reflexivity.
  - repeat constructor; simpl; intuition discriminate.
  - repeat constructor; simpl; intuition discriminate.
Qed.


(** ** [JSON.stringify] and [JSON.parse] are inverse on strings *)

Lemma hex_value_hex_digit (n : N) :
  (n < 16)%N -> hex_value (hex_digit n) = Some n.
Proof.
  intros H. unfold hex_value, hex_digit, is_digit.
  destruct (N.ltb_spec n 10).
  - replace ((48 <=? 48 + n)%N) with true by (symmetry; apply N.leb_le; lia).
    replace ((48 + n <=? 57)%N) with true by (symmetry; apply N.leb_le; lia).
    cbn [andb]. f_equal. lia.
  - replace ((87 + n <=? 57)%N) with false by (symmetry; apply N.leb_gt; lia).
    rewrite andb_false_r.
    replace ((97 <=? 87 + n)%N) with true by (symmetry; apply N.leb_le; lia).
    replace ((87 + n <=? 102)%N) with true by (symmetry; apply N.leb_le; lia).
    cbn [andb]. f_equal. lia.
Qed.

Lemma hex_digits_of_unit (c : N) :
  (c < 65536)%N ->
  ((((N.shiftr c 12 mod 16) * 16 + N.shiftr c 8 mod 16) * 16
    + N.shiftr c 4 mod 16) * 16 + c mod 16 = c)%N.
Proof.
  intros H. rewrite !N.shiftr_div_pow2.
  change (2 ^ 12)%N with (16 * 16 * 16)%N. change (2 ^ 8)%N with (16 * 16)%N.
  change (2 ^ 4)%N with 16%N.
  rewrite <- !N.Div0.div_div.
  pose proof (N.div_mod c 16 ltac:(discriminate)) as E1.
  pose proof (N.div_mod (c / 16) 16 ltac:(discriminate)) as E2.
  pose proof (N.div_mod (c / 16 / 16) 16 ltac:(discriminate)) as E3.
  pose proof (N.mod_lt c 16 ltac:(discriminate)).
  pose proof (N.mod_lt (c / 16) 16 ltac:(discriminate)).
  pose proof (N.mod_lt (c / 16 / 16) 16 ltac:(discriminate)).
  assert (S : (c / 16 / 16 / 16 < 16)%N).
  { rewrite !N.Div0.div_div. apply N.Div0.div_lt_upper_bound. exact H. }
  rewrite (N.mod_small (c / 16 / 16 / 16) 16) by exact S.
  generalize dependent (c mod 16)%N. generalize dependent (c / 16 mod 16)%N.
  generalize dependent (c / 16 / 16 mod 16)%N.
  generalize dependent (c / 16 / 16 / 16)%N.
  generalize dependent (c / 16 / 16)%N. generalize dependent (c / 16)%N.
  intros. lia.
Qed.

Lemma read_unicode_escape (c : N) (rest : jsstring) :
  (c < 65536)%N ->
  exists h1 h2 h3 h4,
    unicode_escape c ++ rest = backslash :: ch "u" :: h1 :: h2 :: h3 :: h4 :: rest
    /\ hex4 h1 h2 h3 h4 = Some c.
Proof.
  intros H. unfold unicode_escape. do 4 eexists. split; [reflexivity|].
  unfold hex4.
  rewrite !hex_value_hex_digit by (apply N.mod_lt; discriminate).
  f_equal. now apply hex_digits_of_unit.
Qed.

Lemma surrogate_is_a_unit (c : N) :
  is_leading_surrogate c = true \/ is_trailing_surrogate c = true ->
  (c < 65536)%N.
Proof.
  unfold is_leading_surrogate, is_trailing_surrogate.
  intros [H|H]; apply andb_true_iff in H as [_ H]; apply N.leb_le in H; lia.
Qed.

Lemma read_string_escape (c : N) (s str after : jsstring) :
  (c < 65536)%N ->
  read_string s = Some (str, after) ->
  read_string (unicode_escape c ++ s) = Some (c :: str, after).
Proof.
  intros H Hs.
  destruct (read_unicode_escape c s H) as [h1 [h2 [h3 [h4 [E H4]]]]].
  rewrite E. cbn [read_string].
  change (backslash =? dquote)%N with false.
  change (backslash =? backslash)%N with true.
  change (ch "u" =? ch "u")%N with true. cbv iota.
  now rewrite H4, Hs.
Qed.

(** Reading the body [QuoteJSONString] writes gives the string back. *)
Lemma read_string_quote_units (s : jsstring) :
  forall (after_lead : bool) (rest : jsstring),
    read_string (quote_units after_lead s ++ dquote :: rest) = Some (s, rest).
Proof.
  induction s as [|c s IH]; intros b rest.
  { reflexivity. }
  assert (Escape : forall b',
             (c < 65536)%N ->
             read_string (unicode_escape c ++ quote_units b' s ++ dquote :: rest)
             = Some (c :: s, rest)).
  { intros b' H. apply read_string_escape; auto. }
  assert (Short : forall e : N,
             (e =? ch "u")%N = false -> escaped e = Some c ->
             read_string (backslash :: e :: quote_units false s ++ dquote :: rest)
             = Some (c :: s, rest)).
  { intros e Eu Ee. cbn [read_string].
    change (backslash =? dquote)%N with false.
    change (backslash =? backslash)%N with true. cbv iota.
    now rewrite Eu, Ee, IH. }
  cbn [quote_units].
  destruct (c =? 8)%N eqn:E8.
  { apply N.eqb_eq in E8. subst c. now apply Short. }
  destruct (c =? 9)%N eqn:E9.
  { apply N.eqb_eq in E9. subst c. now apply Short. }
  destruct (c =? 10)%N eqn:E10.
  { apply N.eqb_eq in E10. subst c. now apply Short. }
  destruct (c =? 12)%N eqn:E12.
  { apply N.eqb_eq in E12. subst c. now apply Short. }
  destruct (c =? 13)%N eqn:E13.
  { apply N.eqb_eq in E13. subst c. now apply Short. }
  destruct (c =? dquote)%N eqn:Eq.
  { apply N.eqb_eq in Eq. subst c. now apply Short. }
  destruct (c =? backslash)%N eqn:Eb.
  { apply N.eqb_eq in Eb. subst c. now apply Short. }
  assert (Raw : forall b',
             (c <? 32)%N = false ->
             read_string (c :: quote_units b' s ++ dquote :: rest)
             = Some (c :: s, rest)).
  { intros b' E. cbn [read_string]. now rewrite Eq, Eb, E, IH. }
  destruct (c <? 32)%N eqn:E32.
  { rewrite <- app_assoc. apply Escape. apply N.ltb_lt in E32. lia. }
  destruct (is_leading_surrogate c) eqn:EL.
  { destruct s as [|d s'].
    - apply (Escape false). apply surrogate_is_a_unit. now left.
    - destruct (is_trailing_surrogate d).
      + now apply Raw.
      + rewrite <- app_assoc. apply Escape. apply surrogate_is_a_unit. now left. }
  destruct (is_trailing_surrogate c) eqn:ET.
  { destruct b.
    - now apply Raw.
    - rewrite <- app_assoc. apply Escape. apply surrogate_is_a_unit. now right. }
  now apply Raw.
Qed.

Lemma read_value_fuel_le (k k' : nat) (s : jsstring) (v : JSValue) (r : jsstring) :
  read_value k s = Got v r -> k <= k' -> read_value k' s = Got v r.
Proof.
  intros H L. induction L as [|k' L IH]; [exact H|].
  apply (proj1 (read_more_fuel k')); [exact IH | discriminate].
Qed.

Lemma read_value_string (k : nat) (s rest : jsstring) :
  read_value (S k) (dquote :: quote_units false s ++ dquote :: rest)
  = Got (JString s) rest.
Proof.
  cbn [read_value skip_whitespace].
  change (is_json_whitespace dquote) with false. cbv iota.
  change (dquote =? ch "{")%N with false.
  change (dquote =? ch "[")%N with false.
  change (dquote =? dquote)%N with true. cbv iota.
  now rewrite read_string_quote_units.
Qed.

Lemma read_member (k : nat) (seen : list (jsstring * JSValue))
    (key val : jsstring) (c : N) (rest : jsstring) :
  is_json_whitespace c = false ->
  read_members (S (S k)) seen
    (dquote :: quote_units false key
     ++ dquote :: ch ":" :: dquote :: quote_units false val
     ++ dquote :: c :: rest)
  = if (c =? ch ",")%N
    then read_members (S k) (define_property key (JString val) seen) rest
    else if (c =? ch "}")%N
         then Got (JObject (define_property key (JString val) seen)) rest
         else SyntaxError.
Proof.
  intros Hc.
  cbn [read_members skip_whitespace].
  change (is_json_whitespace dquote) with false. cbv iota.
  change (dquote =? dquote)%N with true. cbv iota.
  rewrite read_string_quote_units.
  cbn [skip_whitespace].
  change (is_json_whitespace (ch ":")) with false. cbv iota.
  change (ch ":" =? ch ":")%N with true. cbv iota.
  rewrite read_value_string.
  cbn [skip_whitespace]. rewrite Hc. reflexivity.
Qed.

Lemma four_members_flat (k1 v1 k2 v2 k3 v3 k4 v4 : jsstring) :
  ch "{" ::
    (((dquote :: k1 ++ [dquote]) ++ ch ":" :: (dquote :: v1 ++ [dquote]))
     ++ [ch ","]
     ++ ((dquote :: k2 ++ [dquote]) ++ ch ":" :: (dquote :: v2 ++ [dquote]))
     ++ [ch ","]
     ++ ((dquote :: k3 ++ [dquote]) ++ ch ":" :: (dquote :: v3 ++ [dquote]))
     ++ [ch ","]
     ++ ((dquote :: k4 ++ [dquote]) ++ ch ":" :: (dquote :: v4 ++ [dquote])))
    ++ [ch "}"]
  = ch "{" :: dquote :: k1
    ++ dquote :: ch ":" :: dquote :: v1
    ++ dquote :: ch "," :: dquote :: k2
    ++ dquote :: ch ":" :: dquote :: v2
    ++ dquote :: ch "," :: dquote :: k3
    ++ dquote :: ch ":" :: dquote :: v3
    ++ dquote :: ch "," :: dquote :: k4
    ++ dquote :: ch ":" :: dquote :: v4
    ++ dquote :: ch "}" :: [].
Proof. repeat (rewrite <- ?app_assoc; cbn [app]). reflexivity. Qed.

Lemma JSON_stringify_Recommendation (r : Recommendation) :
  JSON_stringify (Recommendation_value r) = Recommendation_text r.
Proof.
  destruct r as [a b c d]. unfold Recommendation_text.
  cbn [outfit footwear accessories stylingTips].
  rewrite <- four_members_flat. reflexivity.
Qed.

Lemma read_Recommendation_text (r : Recommendation) :
  read_value 6 (Recommendation_text r) = Got (Recommendation_value r) [].
Proof.
  destruct r as [a b c d]. unfold Recommendation_text.
  cbn [outfit footwear accessories stylingTips].
  cbn [read_value skip_whitespace].
  change (is_json_whitespace (ch "{")) with false. cbv iota.
  change (ch "{" =? ch "{")%N with true. cbv iota.
  cbn [skip_whitespace].
  change (is_json_whitespace dquote) with false. cbv iota.
  change (dquote =? ch "}")%N with false. cbv iota.
  rewrite !read_member by reflexivity.
  reflexivity.
Qed.

Lemma JSON_parse_Recommendation (r : Recommendation) :
  JSON_parse (JSON_stringify (Recommendation_value r))
  = Some (Recommendation_value r).
Proof.
  rewrite JSON_stringify_Recommendation. unfold JSON_parse.
  rewrite (read_value_fuel_le 6 _ _ _ _ (read_Recommendation_text r));
    [reflexivity|].
  unfold Recommendation_text. simpl. lia.
Qed.

Lemma as_Recommendation_value (r : Recommendation) :
  as_Recommendation (Recommendation_value r) = Some r.
Proof. destruct r; reflexivity. Qed.

(** [JSON.parse(JSON.stringify(x))] gives [x] back for every string [x],
    whatever code units it holds (quotes, backslashes, control characters,
    lone surrogates), and for every [Recommendation], as the object it is
    and read at its interface. *)
Theorem JSON_round_trip :
  (forall s : jsstring, JSON_parse (JSON_stringify (JString s)) = Some (JString s))
  /\ (forall r : Recommendation,
        JSON_parse (JSON_stringify (Recommendation_value r))
        = Some (Recommendation_value r)
        /\ as_Recommendation (Recommendation_value r) = Some r).
Proof.
  split.
  - intros s. unfold JSON_parse.
    change (JSON_stringify (JString s))
      with (dquote :: quote_units false s ++ [dquote]).
    destruct (2 * List.length (dquote :: quote_units false s ++ [dquote]) + 2)
      as [|k] eqn:F; [lia|].
    now rewrite read_value_string.
  - intros r. split;
      [apply JSON_parse_Recommendation | apply as_Recommendation_value].
Qed.

(** Whatever four strings the service sends as a JSON object of the four
    fields, the recommendation cell holds them unchanged after the reply,
    and the system instruction of a chat turn sent then carries the very
    text of the reply. *)
Theorem reply_fields_survive :
  forall (w : World) (i : nat) (c : Call) (o : option Occasion)
         (we : option Weather) (r : Recommendation),
    nth_error (in_flight w) i = Some c ->
    continuation c = generateRecommendation_rest o we ->
    let reply := JSON_stringify (Recommendation_value r) in
    let w' := settle i (Fulfilled (Some reply)) w in
    as_Recommendation (recommendation (state w')) = Some r
    /\ Contains
         (systemInstruction (occasion (state w')) (weather (state w'))
            (recommendation (state w')))
         reply.
Proof.
  intros w i c o we r Hi Hk reply w'. subst reply w'.
  rewrite (settle_at _ _ _ _ Hi), Hk. cbv zeta.
  unfold generateRecommendation_resume. cbn [ToString_or_undefined].
  rewrite JSON_parse_Recommendation. simpl.
  split; [apply as_Recommendation_value|].
  unfold systemInstruction. do 5 apply Contains_skip. apply Contains_here.
Qed.

Lemma reply_fields_survive_scenario :
  let w := run [ClickOccasion Party; ClickWeather Hot; ClickCurate] in
  let r := {| outfit := json_text "A 'silk' shirt"; footwear := [10; 55357; 56832]%N;
              accessories := [92; 0; 55357]%N; stylingTips := [] |} in
  as_Recommendation
    (recommendation
       (state (settle 0 (Fulfilled (Some (JSON_stringify (Recommendation_value r)))) w)))
  = Some r.
Proof.
  intros w r.
  exact (proj1 (reply_fields_survive w 0 _ _ _ r eq_refl eq_refl)).
Defined.

(** ** Two calls in flight *)

Lemma nth_error_remove_nth {A : Type} (l : list A) :
  forall i j, i <> j ->
    nth_error (remove_nth j l) (if j <? i then pred i else i) = nth_error l i.
Proof.
  induction l as [|x l IH]; intros i j Hij.
  - destruct j; simpl; destruct (_ <? _); destruct i; try reflexivity;
      destruct i; reflexivity.
  - destruct j as [|j], i as [|i]; try congruence; simpl.
    + reflexivity.
    + reflexivity.
    + change (S j <? S i) with (j <? i).
      specialize (IH i j ltac:(congruence)).
      destruct (j <? i) eqn:E; [|exact IH].
      apply Nat.ltb_lt in E. destruct i as [|i]; [lia|]. exact IH.
Qed.

Lemma in_flight_settle (w : World) (i : nat) (c : Call) (outcome : Outcome) :
  nth_error (in_flight w) i = Some c ->
  in_flight (settle i outcome w) = remove_nth i (in_flight w).
Proof.
  intros Hi. rewrite (settle_at _ _ _ _ Hi). cbv zeta.
  destruct (continuation c);
    unfold generateRecommendation_resume, handleSendMessage_resume;
    destruct outcome as [t|];
    try destruct (JSON_parse (ToString_or_undefined t)); reflexivity.
Qed.

(** With a recommendation call and a chat call both in flight, the order
    in which they settle decides the transcript.  If the chat reply comes
    first it goes with the old transcript when the look arrives; if the
    look comes first the chat reply lands right after the new greeting,
    without the question it answers.  The recommendation is the same
    either way. *)
Theorem replies_can_cross :
  forall (w : World) (i j : nat) (cr cc : Call) (o : option Occasion)
         (we : option Weather) (body : jsstring) (result : JSValue)
         (outcome : Outcome),
    nth_error (in_flight w) i = Some cr ->
    continuation cr = generateRecommendation_rest o we ->
    nth_error (in_flight w) j = Some cc ->
    continuation cc = handleSendMessage_rest ->
    JSON_parse body = Some result ->
    let look := Fulfilled (Some body) in
    let chat_first :=
      settle (if j <? i then pred i else i) look (settle j outcome w) in
    let look_first :=
      settle (if i <? j then pred j else j) outcome (settle i look w) in
    messages (state chat_first) = [ {| role := model; text := greeting o we |} ]
    /\ (exists reply,
          messages (state look_first)
          = [ {| role := model; text := greeting o we |};
              {| role := model; text := reply |} ])
    /\ recommendation (state chat_first) = result
    /\ recommendation (state look_first) = result.
Proof.
  intros w i j cr cc o we body result outcome Hi Hkr Hj Hkc Hp
         look chat_first look_first.
  assert (Hij : i <> j) by (intros ->; congruence).
  assert (Hi' : nth_error (in_flight (settle j outcome w))
                  (if j <? i then pred i else i) = Some cr).
  { rewrite (in_flight_settle w j cc outcome Hj).
    now rewrite nth_error_remove_nth. }
  assert (Hj' : nth_error (in_flight (settle i look w))
                  (if i <? j then pred j else j) = Some cc).
  { rewrite (in_flight_settle w i cr look Hi).
    rewrite nth_error_remove_nth; [exact Hj | congruence]. }
  subst chat_first look_first.
  rewrite (settle_at _ _ _ _ Hi'), (settle_at _ _ _ _ Hj'), Hkr, Hkc. cbv zeta.
  subst look. rewrite (settle_at _ _ _ _ Hi), Hkr. cbv zeta.
  unfold generateRecommendation_resume, handleSendMessage_resume.
  cbn [ToString_or_undefined]. rewrite Hp.
  split; [reflexivity|]. split; [|split; [reflexivity|]].
  - destruct outcome as [t|]; eexists; reflexivity.
  - destruct outcome as [t|]; reflexivity.
Qed.

Lemma replies_can_cross_scenario :
  let w := run (business_rainy_look
                ++ [ClickAskStylist; ChangeInput tie_question; ClickSend;
                    ClickClose; ClickOccasion Party; ClickCurate]) in
  let look := Fulfilled (Some outfit_only_reply) in
  let reply := Fulfilled (Some (lit "Navy.")) in
  List.length (in_flight w) = 2
  /\ messages (state (settle 0 look (settle 0 reply w)))
     = [greeting_message Party Rainy]
  /\ messages (state (settle 0 reply (settle 1 look w)))
     = [greeting_message Party Rainy; {| role := model; text := lit "Navy." |}].
Proof.
  intros w look reply.
  assert (Hp : JSON_parse outfit_only_reply
               = Some (JObject [(lit "outfit", JString (lit "Navy suit"))]))
    by (vm_compute; reflexivity).
  assert (Hr : nth_error (in_flight w) 1
               = Some {| request :=
                           GenerateContent MODEL
                             (recommendation_prompt (Some Party) (Some Rainy))
                             (lit "application/json") responseSchema;
                         continuation :=
                           generateRecommendation_rest (Some Party) (Some Rainy) |})
    by (vm_compute; reflexivity).
  assert (Hc : exists c, nth_error (in_flight w) 0 = Some c
                         /\ continuation c = handleSendMessage_rest)
    by (eexists; split; vm_compute; reflexivity).
  destruct Hc as [c [Hc Hk]].
  destruct (replies_can_cross w 1 0 _ c _ _ outfit_only_reply _ reply
              Hr eq_refl Hc Hk Hp) as [H1 [[r H2] _]].
  split; [vm_compute; reflexivity|]. split; [exact H1|].
  vm_compute. reflexivity.
Defined.
